(** * The RPC dispatch loop of ykman ([ykman/rpc/__init__.py])

    [process(send, recv, handler)] runs two threads: the reader
    ([_handle_incoming]) and the dispatcher (the [while] loop of [process]).
    They share an [Event] (the cancellation token), a [Queue(1)] (the
    handoff queue) and the [send] callback.  The embedding is a labelled
    transition system: one program counter per thread, one transition per
    source statement that touches shared state, and a schedule that picks
    which thread moves next.  A thread that is blocked ([get] on an empty
    queue, [put] on a full one, [join] with tasks outstanding,
    [read_thread.join()] on a running reader) has no transition.

    What is taken from the collaborators, as their interface says:
    - [recv()] returns a mapping or [None]; the inbound stream is the list
      of the values it will return, and [None] for ever after;
    - [send(frame)] appends the frame to the output in one piece and does
      not raise;
    - one call of [handler] looks at the token and calls [signal] a finite
      number of times and then returns or raises an [Exception].
    Under these the clauses of lines 79-82 are never entered: nothing in
    the reader's [try] block raises anything but the [KeyError] of a
    subscript. *)

From Stdlib Require Import List String Ascii Bool Arith ZArith Lia.
Import ListNotations.
Open Scope string_scope.
Open Scope list_scope.

(** ** Values exchanged over the wire *)

(** What [json.loads] produces and [json.dump] accepts (floats left out). *)
#[warnings="-register-all"]
Inductive json : Type :=
| JNull
| JBool (b : bool)
| JNum (n : Z)
| JStr (s : string)
| JArr (items : list json)
| JObj (members : list (string * json)).

(** A Python [dict] with string keys, in insertion order. *)
Definition Dict : Type := list (string * json).

(** [d[k]]: [None] stands for the [KeyError] the subscript raises. *)
Fixpoint getitem (k : string) (d : Dict) : option json :=
  match d with
  | [] => None
  | (k', v) :: rest => if String.eqb k k' then Some v else getitem k rest
  end.

(** [d.get(k, default)] *)
Definition get (k : string) (default : json) (d : Dict) : json :=
  match getitem k d with
  | Some v => v
  | None => default
  end.

(** [v == "lit"] for a string literal: only a [str] with the same text. *)
Definition eq_str (v : json) (lit : string) : bool :=
  match v with
  | JStr s => String.eqb s lit
  | _ => false
  end.

(** What [recv()] returns: a mapping, or [None] at the end of the stream
    ([recv: Callable[[], Dict]], and [run_rpc_pipes] returns [None] when
    [readline] gives nothing). *)
Definition request : Type := option Dict.

(** Python truth value of a [recv()] result: [None] and [{}] are falsy. *)
Definition truthy (r : request) : bool :=
  match r with
  | None => false
  | Some [] => false
  | Some (_ :: _) => true
  end.

(** [str(KeyError(k))] and [repr(KeyError(k))] for the plain keys the code
    subscripts with. *)
Definition str_KeyError (k : string) : string :=
  String.append "'" (String.append k "'").
Definition repr_KeyError (k : string) : string :=
  String.append "KeyError('" (String.append k "')").

(** ** Outbound frames: the three closures of [process] *)

Definition empty_body : json := JObj [].

(** [dict(kind="error", status=status, message=message, body=body)] *)
Definition error_frame (status message : string) (body : json) : Dict :=
  [("kind", JStr "error"); ("status", JStr status);
   ("message", JStr message); ("body", body)].

(** [dict(kind="signal", status=status, body=body)], [body] defaulting to
    [{}]. *)
Definition signal_frame (status : string) (body : option json) : Dict :=
  [("kind", JStr "signal"); ("status", JStr status);
   ("body", match body with Some b => b | None => empty_body end)].

(** [dict(kind="success", body=body)] *)
Definition success_frame (body : json) : Dict :=
  [("kind", JStr "success"); ("body", body)].

(** ** The external handler *)

(** Modelled from the spec: [RpcException] lives in [ykman/rpc/base.py],
    which is not part of the sources at hand; the spec describes it as a
    structured failure carrying [status], [message] and an optional [body]
    (empty mapping when not given).  [RaisedRpc] holds the three attributes
    the [except RpcException] clauses read. *)
Inductive outcome : Type :=
| Returned (value : json)
| RaisedRpc (status message : string) (body : json)
| RaisedOther (rendering : string).   (* any other [Exception], as [f"{e!r}"] *)

(** One invocation of the handler, as seen from the core: it may call
    [signal(status[, body])], look at the token ([event.is_set()]), and
    eventually returns or raises. *)
Inductive hprog : Type :=
| HDone (o : outcome)
| HSignal (status : string) (body : option json) (k : hprog)
| HIsSet (k : bool -> hprog).

(** [handler(action, target, body, event, signal)]; the last two arguments
    are the [HIsSet] and [HSignal] nodes of the result. *)
Definition Handler : Type := json -> json -> json -> hprog.

(** The frame the dispatcher sends for an outcome of the [try] block
    (lines 110-123). *)
Definition reply_frame (o : outcome) : Dict :=
  match o with
  | Returned v => success_frame v
  | RaisedRpc status message body => error_frame status message body
  | RaisedOther rendering => error_frame "exception" rendering empty_body
  end.

(** ** Threads, program counters and the shared state *)

Inductive tid : Type := Reader | Dispatcher.

(** Where [_handle_incoming] stands. *)
Inductive reader_pc : Type :=
| R_Recv                            (* 59-61: recv(), truth test *)
| R_Route (req : Dict)              (* 62-66, 71, 75, 77: the try block's tests *)
| R_SetCancel                       (* 67: event.set() *)
| R_Log (req : Dict)                (* 70: logger.error *)
| R_Join (req : Dict)               (* 72: cmd_queue.join() *)
| R_Clear (req : Dict)              (* 73: event.clear() *)
| R_Put (req : Dict)                (* 74: cmd_queue.put(request) *)
| R_Error (status message : string) (* 76, 78: error(...) *)
| R_ExitSet                         (* 83: event.set() *)
| R_ExitPut                         (* 84: cmd_queue.put(None) *)
| R_Done.

(** Where the loop of [process] stands. *)
Inductive main_pc : Type :=
| M_Get                             (* 107-109: cmd_queue.get(), sentinel test *)
| M_Call (req : Dict)               (* 112-118: arguments, then the call *)
| M_Run (p : hprog)                 (* inside handler(...) *)
| M_Reply (o : outcome)             (* 111, 121, 123: success(...) / error(...) *)
| M_TaskDone                        (* 124: cmd_queue.task_done() *)
| M_JoinReader                      (* 126: read_thread.join() *)
| M_Returned
| M_Raised.                         (* ValueError out of task_done() *)

Record state : Type := mkState {
  inbound : list request;           (* what the next calls of recv() return *)
  event : bool;                     (* Event: is_set() *)
  cmd_queue : list (option Dict);   (* Queue(1): items, oldest first *)
  unfinished_tasks : nat;           (* Queue.unfinished_tasks *)
  outbound : list Dict;             (* frames given to send(), oldest first *)
  logged : list Dict;               (* requests given to logger.error *)
  reader : reader_pc;
  main : main_pc
}.

(** What a transition did. *)
Inductive label : Type :=
| L_Recv (r : request)
| L_Route
| L_Set
| L_Clear
| L_Joined
| L_Put (item : option Dict)
| L_Log (req : Dict)
| L_Get (item : option Dict)
| L_Invoke (action target body : json)
| L_IsSet (b : bool)
| L_Outcome (o : outcome)
| L_Send (frame : Dict)
| L_TaskDone
| L_ReaderJoined
| L_Raise.

Definition maxsize : nat := 1.      (* Queue(1) *)

Definition with_reader (s : state) (pc : reader_pc) : state :=
  mkState (inbound s) (event s) (cmd_queue s) (unfinished_tasks s)
          (outbound s) (logged s) pc (main s).

Definition with_main (s : state) (pc : main_pc) : state :=
  mkState (inbound s) (event s) (cmd_queue s) (unfinished_tasks s)
          (outbound s) (logged s) (reader s) pc.

Definition with_event (s : state) (b : bool) : state :=
  mkState (inbound s) b (cmd_queue s) (unfinished_tasks s)
          (outbound s) (logged s) (reader s) (main s).

(** [send(frame)] *)
Definition send (s : state) (frame : Dict) : state :=
  mkState (inbound s) (event s) (cmd_queue s) (unfinished_tasks s)
          (outbound s ++ [frame]) (logged s) (reader s) (main s).

(** [cmd_queue.put(item)]: blocks ([None]) while the queue is full. *)
Definition put (s : state) (item : option Dict) : option state :=
  if Nat.ltb (List.length (cmd_queue s)) maxsize
  then Some (mkState (inbound s) (event s) (cmd_queue s ++ [item])
                     (S (unfinished_tasks s)) (outbound s) (logged s)
                     (reader s) (main s))
  else None.

(** The tests of the [try] block of [_handle_incoming] on a truthy request:
    the statement the reader goes to next. *)
Definition route (req : Dict) : reader_pc :=
  match getitem "kind" req with
  | None => R_Error "invalid-command" (str_KeyError "kind")
  | Some kind =>
      if eq_str kind "signal" then
        match getitem "status" req with
        | None => R_Error "invalid-command" (str_KeyError "status")
        | Some status =>
            if eq_str status "cancel" then R_SetCancel else R_Log req
        end
      else if eq_str kind "command" then R_Join req
      else R_Error "invalid-command" "Unsupported request type"
  end.

(** [request = recv()]: the next inbound value, [None] once the stream has
    ended. *)
Definition recv (s : state) : request * state :=
  (match inbound s with [] => None | r :: _ => r end,
   mkState (tl (inbound s)) (event s) (cmd_queue s) (unfinished_tasks s)
           (outbound s) (logged s) (reader s) (main s)).

(** [if not request: break], else into the [try] block. *)
Definition after_recv (r : request) : reader_pc :=
  match r with
  | Some req => if truthy r then R_Route req else R_ExitSet
  | None => R_ExitSet
  end.

(** One statement of [_handle_incoming]. *)
Definition _handle_incoming (s : state) : option (label * state) :=
  match reader s with
  | R_Recv =>
      let (r, s') := recv s in
      Some (L_Recv r, with_reader s' (after_recv r))
  | R_Route req => Some (L_Route, with_reader s (route req))
  | R_SetCancel => Some (L_Set, with_reader (with_event s true) R_Recv)
  | R_Log req =>
      Some (L_Log req,
            mkState (inbound s) (event s) (cmd_queue s) (unfinished_tasks s)
                    (outbound s) (logged s ++ [req]) R_Recv (main s))
  | R_Join req =>
      if Nat.eqb (unfinished_tasks s) 0
      then Some (L_Joined, with_reader s (R_Clear req))
      else None
  | R_Clear req => Some (L_Clear, with_reader (with_event s false) (R_Put req))
  | R_Put req =>
      match put s (Some req) with
      | Some s' => Some (L_Put (Some req), with_reader s' R_Recv)
      | None => None
      end
  | R_Error status message =>
      let frame := error_frame status message empty_body in
      Some (L_Send frame, with_reader (send s frame) R_Recv)
  | R_ExitSet => Some (L_Set, with_reader (with_event s true) R_ExitPut)
  | R_ExitPut =>
      match put s None with
      | Some s' => Some (L_Put None, with_reader s' R_Done)
      | None => None
      end
  | R_Done => None
  end.

(** [if request is None: break], else into the [try] block. *)
Definition after_get (item : option Dict) : main_pc :=
  match item with
  | None => M_JoinReader
  | Some req => M_Call req
  end.

Section Core.

Variable handler : Handler.

(** One statement of the loop of [process]. *)
Definition process (s : state) : option (label * state) :=
  match main s with
  | M_Get =>
      match cmd_queue s with
      | [] => None
      | item :: rest =>
          let s' := mkState (inbound s) (event s) rest (unfinished_tasks s)
                            (outbound s) (logged s) (reader s) (main s) in
          Some (L_Get item, with_main s' (after_get item))
      end
  | M_Call req =>
      match getitem "action" req with
      | None =>
          let o := RaisedOther (repr_KeyError "action") in
          Some (L_Outcome o, with_main s (M_Reply o))
      | Some action =>
          let target := get "target" (JArr []) req in
          let body := get "body" empty_body req in
          Some (L_Invoke action target body,
                with_main s (M_Run (handler action target body)))
      end
  | M_Run (HDone o) => Some (L_Outcome o, with_main s (M_Reply o))
  | M_Run (HSignal status body k) =>
      let frame := signal_frame status body in
      Some (L_Send frame, with_main (send s frame) (M_Run k))
  | M_Run (HIsSet k) =>
      Some (L_IsSet (event s), with_main s (M_Run (k (event s))))
  | M_Reply o =>
      let frame := reply_frame o in
      Some (L_Send frame, with_main (send s frame) M_TaskDone)
  | M_TaskDone =>
      match unfinished_tasks s with
      | O => Some (L_Raise, with_main s M_Raised)
      | S n =>
          Some (L_TaskDone,
                mkState (inbound s) (event s) (cmd_queue s) n
                        (outbound s) (logged s) (reader s) M_Get)
      end
  | M_JoinReader =>
      match reader s with
      | R_Done => Some (L_ReaderJoined, with_main s M_Returned)
      | _ => None
      end
  | M_Returned => None
  | M_Raised => None
  end.

(** One move of the chosen thread; [None] when it is blocked or finished. *)
Definition step (t : tid) (s : state) : option (label * state) :=
  match t with
  | Reader => _handle_incoming s
  | Dispatcher => process s
  end.

(** Run a schedule: each entry lets one thread move if it can. *)
Fixpoint run (sched : list tid) (s : state) : list (tid * label) * state :=
  match sched with
  | [] => ([], s)
  | t :: rest =>
      match step t s with
      | None => run rest s
      | Some (l, s') =>
          let (tr, s'') := run rest s' in ((t, l) :: tr, s'')
      end
  end.

Definition trace_of (sched : list tid) (s : state) : list (tid * label) :=
  fst (run sched s).

Definition state_after (sched : list tid) (s : state) : state :=
  snd (run sched s).

End Core.

(** [process(send, recv, handler)] after [read_thread.start()]. *)
Definition init (input : list request) : state :=
  mkState input false [] 0 [] [] R_Recv M_Get.

(** ** The shape of every reachable state *)

Definition holds_command (pc : main_pc) : bool :=
  match pc with
  | M_Call _ | M_Run _ | M_Reply _ | M_TaskDone => true
  | _ => false
  end.

Definition past_sentinel (pc : main_pc) : bool :=
  match pc with
  | M_JoinReader | M_Returned => true
  | _ => false
  end.

Definition b2n (b : bool) : nat := if b then 1 else 0.

(** Commands handed over and not yet acknowledged with [task_done()]. *)
Definition is_command (item : option Dict) : bool :=
  match item with Some _ => true | None => false end.

Definition in_flight (s : state) : nat :=
  List.length (filter is_command (cmd_queue s)) + b2n (holds_command (main s)).

(** The dispatcher is idle or busy with a command, and the counter of the
    queue says which. *)
Definition working (s : state) : Prop :=
  cmd_queue s = [] /\ past_sentinel (main s) = false /\ main s <> M_Raised /\
  unfinished_tasks s = b2n (holds_command (main s)).

Definition Inv (s : state) : Prop :=
  match reader s with
  | R_Clear _ | R_Put _ =>
      cmd_queue s = [] /\ main s = M_Get /\ unfinished_tasks s = 0
  | R_Done =>
      (cmd_queue s = [None] /\ past_sentinel (main s) = false /\
       main s <> M_Raised /\
       unfinished_tasks s = 1 + b2n (holds_command (main s)))
      \/ (cmd_queue s = [] /\ past_sentinel (main s) = true /\
          unfinished_tasks s = 1)
  | _ =>
      (exists c, cmd_queue s = [Some c] /\ main s = M_Get /\
                 unfinished_tasks s = 1)
      \/ working s
  end.

(** ** Progress measure *)

(** The longest run of [signal] calls and token checks an invocation can
    make before it returns or raises. *)
Fixpoint height (p : hprog) : nat :=
  match p with
  | HDone _ => 0
  | HSignal _ _ k => S (height k)
  | HIsSet k => S (Nat.max (height (k true)) (height (k false)))
  end.

Section Costs.

Variable handler : Handler.

(** Transitions left for the dispatcher, by where it stands. *)
Definition cost_run (p : hprog) : nat := height p + 3.

Definition cost_call (req : Dict) : nat :=
  S (match getitem "action" req with
     | None => 2
     | Some action =>
         cost_run (handler action (get "target" (JArr []) req)
                                  (get "body" empty_body req))
     end).

Definition cost_item (item : option Dict) : nat :=
  match item with
  | Some req => S (cost_call req)
  | None => 2
  end.

Definition cost_main (pc : main_pc) : nat :=
  match pc with
  | M_Get => 0
  | M_Call req => cost_call req
  | M_Run p => cost_run p
  | M_Reply _ => 2
  | M_TaskDone => 1
  | M_JoinReader => 1
  | M_Returned => 0
  | M_Raised => 0
  end.

(** Transitions left for the reader until it is back at [recv()] (or done),
    plus those its item will cost the dispatcher. *)
Definition cost_straight (pc : reader_pc) : nat :=
  match pc with
  | R_Recv => 0
  | R_Route _ => 0
  | R_SetCancel => 1
  | R_Log _ => 1
  | R_Join req => 3 + cost_item (Some req)
  | R_Clear req => 2 + cost_item (Some req)
  | R_Put req => 1 + cost_item (Some req)
  | R_Error _ _ => 1
  | R_ExitSet => 2 + cost_item None
  | R_ExitPut => 1 + cost_item None
  | R_Done => 0
  end.

Definition cost_reader (pc : reader_pc) : nat :=
  match pc with
  | R_Route req => S (cost_straight (route req))
  | _ => cost_straight pc
  end.

Fixpoint cost_inbound (input : list request) : nat :=
  match input with
  | [] => S (cost_reader R_ExitSet)
  | r :: rest =>
      S (match r with
         | Some req => if truthy r then cost_reader (R_Route req)
                       else cost_reader R_ExitSet
         | None => cost_reader R_ExitSet
         end) + cost_inbound rest
  end.

(** Once past the loop the reader reads nothing more. *)
Definition exiting (pc : reader_pc) : bool :=
  match pc with
  | R_ExitSet | R_ExitPut | R_Done => true
  | _ => false
  end.

Definition measure (s : state) : nat :=
  cost_reader (reader s)
  + (if exiting (reader s) then 0 else cost_inbound (inbound s))
  + list_sum (map cost_item (cmd_queue s)) + cost_main (main s).
End Costs.

(** ** Histories *)

Definition count {A} (p : A -> bool) (l : list A) : nat :=
  List.length (filter p l).

(** The reader hands over a command. *)
Definition is_put_command (e : tid * label) : bool :=
  match e with (Reader, L_Put (Some _)) => true | _ => false end.

(** The dispatcher takes a command out of the queue. *)
Definition is_get_command (e : tid * label) : bool :=
  match e with (Dispatcher, L_Get (Some _)) => true | _ => false end.

(** The dispatcher acknowledges the drain: [task_done()]. *)
Definition is_ack (e : tid * label) : bool :=
  match e with (Dispatcher, L_TaskDone) => true | _ => false end.

Definition turns (t : tid) (sched : list tid) : nat :=
  count (fun t' => match t, t' with
                   | Reader, Reader | Dispatcher, Dispatcher => true
                   | _, _ => false
                   end) sched.

(** Puts, gets and acknowledgements of a history add up to what the state
    still holds, and every put of a command found all earlier ones
    acknowledged. *)
Definition balanced (tr : list (tid * label)) (s : state) : Prop :=
  count is_put_command tr = count is_ack tr + in_flight s /\
  count is_get_command tr
  = count is_ack tr + b2n (holds_command (main s)) /\
  forall tr1 c tr2,
    tr = tr1 ++ (Reader, L_Put (Some c)) :: tr2 ->
    count is_put_command tr1 = count is_ack tr1.

(** ** Sample inputs *)

(** A handler that checks the token once: it gives up with a structured
    failure when cancelled, and otherwise reports progress and returns the
    body it was given. *)
Definition echo_handler : Handler :=
  fun action target body =>
    HIsSet (fun cancelled =>
      if cancelled
      then HDone (RaisedRpc "cancelled" "stopped" empty_body)
      else HSignal "progress" None (HDone (Returned body))).

Definition list_command : Dict :=
  [("kind", JStr "command"); ("action", JStr "list");
   ("target", JArr []); ("body", JObj [])].

Definition cancel_signal : Dict :=
  [("kind", JStr "signal"); ("status", JStr "cancel")].

(** The reader takes one frame through to the queue ([recv], tests,
    [join], [clear], [put]). *)
Definition reader_turns (n : nat) : list tid := repeat Reader n.
Definition dispatcher_turns (n : nat) : list tid := repeat Dispatcher n.

(** ** What a history shows *)

(** The frames given to [send], by either thread, in order. *)
Definition sent (tr : list (tid * label)) : list Dict :=
  flat_map (fun e => match snd e with L_Send f => [f] | _ => [] end) tr.

(** A frame of kind [success] or [error]. *)
Definition is_result_frame (f : Dict) : bool :=
  match getitem "kind" f with
  | Some k => eq_str k "success" || eq_str k "error"
  | None => false
  end.

(** The dispatcher calls the handler. *)
Definition is_invoke (e : tid * label) : bool :=
  match e with (Dispatcher, L_Invoke _ _ _) => true | _ => false end.

(** The dispatcher sends the frame that answers a command. *)
Definition is_result (e : tid * label) : bool :=
  match e with (Dispatcher, L_Send f) => is_result_frame f | _ => false end.

(** The arguments [process] passes on for a command: [request["action"]],
    [request.get("target", [])], [request.get("body", {})]. *)
Definition call_args (req : Dict) : option json * json * json :=
  (getitem "action" req, get "target" (JArr []) req, get "body" empty_body req).

(** The handler calls of a history, with their arguments. *)
Definition invocations (tr : list (tid * label))
  : list (option json * json * json) :=
  flat_map (fun e => match e with
                     | (Dispatcher, L_Invoke a t b) => [(Some a, t, b)]
                     | _ => []
                     end) tr.

(** ** Commands on their way to the handler *)

(** The command a statement of the reader is about to hand over. *)
Definition enqueues (pc : reader_pc) : list Dict :=
  match pc with
  | R_Join req | R_Clear req | R_Put req => [req]
  | _ => []
  end.

(** The frames of an input that the reader will put in the queue: those it
    routes to line 72, up to the first falsy value. *)
Fixpoint commands_read (input : list request) : list Dict :=
  match input with
  | [] => []
  | r :: rest =>
      match after_recv r with
      | R_Route req => enqueues (route req) ++ commands_read rest
      | _ => []
      end
  end.

Definition reader_upcoming (pc : reader_pc) (input : list request) : list Dict :=
  match pc with
  | R_Route req => enqueues (route req) ++ commands_read input
  | R_ExitSet | R_ExitPut | R_Done => []
  | _ => enqueues pc ++ commands_read input
  end.

Definition queued (q : list (option Dict)) : list Dict :=
  flat_map (fun item => match item with Some req => [req] | None => [] end) q.

(** Commands not yet taken by the dispatcher, oldest first. *)
Definition upcoming (s : state) : list Dict :=
  queued (cmd_queue s) ++ reader_upcoming (reader s) (inbound s).

(** Commands for which the handler has not been called yet. *)
Definition awaiting (s : state) : list Dict :=
  match main s with M_Call req => [req] | _ => [] end ++ upcoming s.

(** The commands a history shows leaving the queue. *)
Definition dequeued (tr : list (tid * label)) : list Dict :=
  flat_map (fun e => match e with
                     | (Dispatcher, L_Get (Some req)) => [req]
                     | _ => []
                     end) tr.

Definition has_action (req : Dict) : bool :=
  match getitem "action" req with Some _ => true | None => false end.

(** The handler calls a list of commands leads to: none for a command
    without [action]. *)
Definition calls (reqs : list Dict) : list (option json * json * json) :=
  map call_args (filter has_action reqs).

(** A valid command frame: [kind] is ["command"] and [action] is there. *)
Definition is_valid_command (req : Dict) : bool :=
  match getitem "kind" req with
  | Some k => eq_str k "command" && has_action req
  | None => false
  end.

(** The dispatcher is inside the handler or about to send its reply. *)
Definition answering (pc : main_pc) : bool :=
  match pc with
  | M_Run _ | M_Reply _ => true
  | _ => false
  end.

(** The reader is at a statement it reaches for command frames only. *)
Definition calm_reader (pc : reader_pc) : bool :=
  match pc with
  | R_Error _ _ | R_SetCancel | R_Log _ => false
  | R_Route req => is_valid_command req
  | _ => true
  end.

Definition valid_request (r : request) : bool :=
  match r with Some req => is_valid_command req | None => false end.

(** Everything read or still to be read is a valid command frame. *)
Definition commands_only (s : state) : Prop :=
  forallb valid_request (inbound s) = true /\
  calm_reader (reader s) = true /\
  forallb has_action (awaiting s) = true.

(** With valid command frames only, calls and result frames alternate. *)
Definition served (tr : list (tid * label)) (s : state) : Prop :=
  commands_only s /\
  count is_invoke tr = count is_result tr + b2n (answering (main s)) /\
  count is_result_frame (sent tr) = count is_result tr.

Definition bogus_command : Dict :=
  [("kind", JStr "command"); ("action", JStr "bogus")].

(** ** Frames the reader turns down *)

(** The error frame the reader sends for a request, if any (lines 76, 78). *)
Definition complaint (req : Dict) : list Dict :=
  match route req with
  | R_Error status message => [error_frame status message empty_body]
  | _ => []
  end.

Definition pending_complaint (pc : reader_pc) : list Dict :=
  match pc with
  | R_Route req => complaint req
  | R_Error status message => [error_frame status message empty_body]
  | _ => []
  end.

(** The requests a history shows entering the [try] block. *)
Definition received (tr : list (tid * label)) : list Dict :=
  flat_map (fun e => match e with
                     | (Reader, L_Recv r) =>
                         match after_recv r with
                         | R_Route req => [req]
                         | _ => []
                         end
                     | _ => []
                     end) tr.

(** The frames a history shows the reader sending. *)
Definition reader_sent (tr : list (tid * label)) : list Dict :=
  flat_map (fun e => match e with
                     | (Reader, L_Send f) => [f]
                     | _ => []
                     end) tr.






Definition unknown_kind : Dict := [("kind", JStr "unknown")].

(** ** The end of the stream *)

(** What each thread does in a history. *)
Definition reader_view (tr : list (tid * label)) : list label :=
  flat_map (fun e => match e with (Reader, l) => [l] | _ => [] end) tr.

Definition dispatcher_view (tr : list (tid * label)) : list label :=
  flat_map (fun e => match e with (Dispatcher, l) => [l] | _ => [] end) tr.

(** What is left of lines 83-84. *)
Definition exit_script (pc : reader_pc) : list label :=
  match pc with
  | R_ExitSet => [L_Set; L_Put None]
  | R_ExitPut => [L_Put None]
  | _ => []
  end.

(** What is left for the dispatcher once it holds the sentinel. *)
Definition return_script (pc : main_pc) : list label :=
  match pc with
  | M_JoinReader => [L_ReaderJoined]
  | _ => []
  end.

(** A command is queued or with the dispatcher and its result frame has not
    been sent yet. *)
Definition reply_due (s : state) : bool :=
  existsb is_command (cmd_queue s)
  || match main s with
     | M_Call _ | M_Run _ | M_Reply _ => true
     | _ => false
     end.

(** The token where the reader has just cleared or set it. *)
Definition token_settled (s : state) : Prop :=
  match reader s with
  | R_Put _ => event s = false
  | R_ExitPut | R_Done => event s = true
  | _ => True
  end.

(** ** What the handler sees of the token *)

(** Has the reader set the token ([event.set()], for a cancel signal or at
    the end of the stream) since it last put a command in the queue? *)
Definition token_after (seen : bool) (e : tid * label) : bool :=
  match e with
  | (Reader, L_Put (Some _)) => false
  | (Reader, L_Set) => true
  | _ => seen
  end.

Definition cancelled_since_put (tr : list (tid * label)) : bool :=
  fold_left token_after tr false.

Definition at_put (pc : reader_pc) : bool :=
  match pc with R_Put _ => true | _ => false end.

(** The token is what the history says, except between [event.clear()]
    and the [put] that follows it. *)
Definition token_tracked (tr : list (tid * label)) (s : state) : Prop :=
  token_settled s /\
  (at_put (reader s) = false -> event s = cancelled_since_put tr) /\
  match reader s with
  | R_Put _ => exists pre, reader_view tr = pre ++ [L_Joined; L_Clear]
  | R_Clear _ => exists pre, reader_view tr = pre ++ [L_Joined]
  | _ => True
  end.

(** A command in flight, then a cancel signal, then a check of the token. *)
Definition cancel_in_flight : list tid :=
  reader_turns 5 ++ dispatcher_turns 2 ++ reader_turns 3 ++ dispatcher_turns 1.

(** ** Replies *)

(** The dispatcher owes the result frame of the command it holds. *)
Definition reply_pending (pc : main_pc) : bool :=
  match pc with
  | M_Call _ | M_Run _ | M_Reply _ => true
  | _ => false
  end.

(** Every command taken from the queue has its result frame, or is the one
    being handled; and the reply about to be sent is for the outcome the
    dispatcher has just seen. *)
Definition replies_match (tr : list (tid * label)) (s : state) : Prop :=
  count is_get_command tr = count is_result tr + b2n (reply_pending (main s))
  /\ forall o, main s = M_Reply o ->
               exists pre, dispatcher_view tr = pre ++ [L_Outcome o].


(** ** Frames that differ in fields the core does not read *)

Definition is_command_frame (req : Dict) : bool :=
  match getitem "kind" req with
  | Some k => eq_str k "command"
  | None => false
  end.

(** Two frames are the same to the core when they are equal, or are both
    command frames with the same [action], [target] and [body] (defaults
    applied). *)
Definition same_command (d1 d2 : Dict) : Prop :=
  d1 = d2 \/
  (is_command_frame d1 = true /\ is_command_frame d2 = true /\
   call_args d1 = call_args d2).

Definition same_request (r1 r2 : option Dict) : Prop :=
  match r1, r2 with
  | Some d1, Some d2 => same_command d1 d2
  | None, None => True
  | _, _ => False
  end.

Definition same_reader (pc1 pc2 : reader_pc) : Prop :=
  match pc1, pc2 with
  | R_Route d1, R_Route d2 => same_command d1 d2
  | R_Join d1, R_Join d2 => same_command d1 d2
  | R_Clear d1, R_Clear d2 => same_command d1 d2
  | R_Put d1, R_Put d2 => same_command d1 d2
  | _, _ => pc1 = pc2
  end.

Definition same_main (pc1 pc2 : main_pc) : Prop :=
  match pc1, pc2 with
  | M_Call d1, M_Call d2 => same_command d1 d2
  | _, _ => pc1 = pc2
  end.

Definition same_state (s1 s2 : state) : Prop :=
  Forall2 same_request (inbound s1) (inbound s2) /\
  event s1 = event s2 /\
  Forall2 same_request (cmd_queue s1) (cmd_queue s2) /\
  unfinished_tasks s1 = unfinished_tasks s2 /\
  outbound s1 = outbound s2 /\
  logged s1 = logged s2 /\
  same_reader (reader s1) (reader s2) /\
  same_main (main s1) (main s2).

(** What the handler and the peer can tell of a transition. *)
Definition observable (l : label) : option label :=
  match l with
  | L_Invoke _ _ _ | L_IsSet _ | L_Outcome _ | L_Send _ => Some l
  | _ => None
  end.

Definition observed (tr : list (tid * label)) : list label :=
  flat_map (fun e => match observable (snd e) with
                     | Some l => [l]
                     | None => []
                     end) tr.

Definition command_with_extras : Dict :=
  [("kind", JStr "command"); ("id", JNum 7); ("action", JStr "list");
   ("trace", JBool true)].

(** ** The whole session, on any input *)

(** The requests of an input that enter the [try] block: all up to the
    first falsy value. *)
Fixpoint requests_read (input : list request) : list Dict :=
  match input with
  | [] => []
  | r :: rest =>
      match after_recv r with
      | R_Route req => req :: requests_read rest
      | _ => []
      end
  end.

(** What the reader has still to take into its [try] block. *)
Definition to_receive (s : state) : list Dict :=
  if exiting (reader s) then [] else requests_read (inbound s).

(** The frames a history shows the dispatcher sending. *)
Definition dispatcher_sent (tr : list (tid * label)) : list Dict :=
  flat_map (fun e => match e with
                     | (Dispatcher, L_Send f) => [f]
                     | _ => []
                     end) tr.


Definition is_signal_frame (f : Dict) : Prop :=
  exists status body, f = signal_frame status body.



(** ** Handlers that never look at the token *)

Fixpoint poll_free (p : hprog) : bool :=
  match p with
  | HDone _ => true
  | HSignal _ _ k => poll_free k
  | HIsSet _ => false
  end.

(** The frames an invocation sends when it never looks at the token: its
    signals, then the frame of its outcome. *)
Fixpoint frames_of (p : hprog) : list Dict :=
  match p with
  | HDone o => [reply_frame o]
  | HSignal status body k => signal_frame status body :: frames_of k
  | HIsSet k => frames_of (k false)
  end.

Section Answers.

Variable handler : Handler.

(** The frames the dispatcher sends for a command. *)
Definition answer (req : Dict) : list Dict :=
  match getitem "action" req with
  | None => [reply_frame (RaisedOther (repr_KeyError "action"))]
  | Some action =>
      frames_of (handler action (get "target" (JArr []) req)
                                (get "body" empty_body req))
  end.

(** The frames the dispatcher has still to send for what it holds. *)
Definition to_send (pc : main_pc) : list Dict :=
  match pc with
  | M_Call req => answer req
  | M_Run p => frames_of p
  | M_Reply o => [reply_frame o]
  | _ => []
  end.

End Answers.

(** A handler that reports progress and returns the body it was given. *)
Definition plain_handler : Handler :=
  fun action target body => HSignal "progress" None (HDone (Returned body)).

(** ** Signals the reader does not handle *)

(** The request is a signal whose status is not ["cancel"]: line 70. *)
Definition unhandled (req : Dict) : list Dict :=
  match route req with
  | R_Log req' => [req']
  | _ => []
  end.

Definition pending_log (pc : reader_pc) : list Dict :=
  match pc with
  | R_Route req => unhandled req
  | R_Log req => [req]
  | _ => []
  end.

Definition other_signal : Dict :=
  [("kind", JStr "signal"); ("status", JStr "pause")].

(** The reader has a command frame and waits for the one before it. *)
Definition behind_a_command (pc : reader_pc) : bool :=
  match pc with
  | R_Route req => is_command_frame req
  | R_Join _ => true
  | _ => false
  end.

(** ** The pipes of [run_rpc_pipes] *)

(** The line break the transport writes and reads. *)
Definition newline : ascii := Ascii.ascii_of_nat 10.

(** [ch.isspace()] for a character below 256: tab to carriage return, the
    four separators 28-31, the space, NEL and the no-break space. *)
Definition isspace (c : ascii) : bool :=
  let n := Ascii.nat_of_ascii c in
  (Nat.leb 9 n && Nat.leb n 13) || (Nat.leb 28 n && Nat.leb n 32)
  || Nat.eqb n 133 || Nat.eqb n 160.

(** [s.lstrip()] *)
Fixpoint lstrip (s : string) : string :=
  match s with
  | EmptyString => EmptyString
  | String c rest => if isspace c then lstrip rest else s
  end.

(** [s.rstrip()] *)
Fixpoint rstrip (s : string) : string :=
  match s with
  | EmptyString => EmptyString
  | String c rest =>
      match rstrip rest with
      | EmptyString => if isspace c then EmptyString else String c EmptyString
      | kept => String c kept
      end
  end.

(** [s.strip()] *)
Definition strip (s : string) : string := lstrip (rstrip s).

(** [stdin.readline()] on what is left of the input: the text up to and
    with the next line break, or all of it when there is none; the empty
    string at the end. *)
Fixpoint readline (stdin : string) : string * string :=
  match stdin with
  | EmptyString => (EmptyString, EmptyString)
  | String c rest =>
      if Ascii.eqb c newline then (String c EmptyString, rest)
      else let (line, left) := readline rest in (String c line, left)
  end.

(** The text has no line break in it. *)
Fixpoint one_line (s : string) : bool :=
  match s with
  | EmptyString => true
  | String c rest => negb (Ascii.eqb c newline) && one_line rest
  end.

Section Pipes.

(** [json.dumps(data, default=_json_encode)] and [json.loads] ([None] when
    it raises), as given by the [json] module. *)
Variable dumps : Dict -> string.
Variable loads : string -> option json.

(** [send(data)] of [run_rpc_pipes], on what has been written so far. *)
Definition pipe_send (stdout : string) (data : Dict) : string :=
  String.append stdout (String.append (dumps data) (String newline EmptyString)).

(** [recv()] of [run_rpc_pipes]: the value returned ([JNull] is Python's
    [None]; no value when [json.loads] raises) and what is left to read. *)
Definition pipe_recv (stdin : string) : option json * string :=
  let (line, left) := readline stdin in
  (match line with
   | EmptyString => Some JNull
   | _ => loads (strip line)
   end, left).

(** [n] calls of [recv()] in a row. *)
Fixpoint pipe_recv_all (n : nat) (stdin : string) : list (option json) :=
  match n with
  | O => []
  | S n' => let (v, left) := pipe_recv stdin in v :: pipe_recv_all n' left
  end.

End Pipes.

(** A stand-in for the codec, for a frame without fields. *)
Definition dumps_empty : Dict -> string := fun _ => "{}".
Definition loads_empty : string -> option json := fun _ => Some (JObj []).
(** * Proofs *)

Lemma Inv_init (input : list request) : Inv (init input).
Proof. right. repeat split; discriminate. Qed.

Lemma route_cases (req : Dict) :
  (exists status message, route req = R_Error status message) \/
  route req = R_SetCancel \/ route req = R_Log req \/ route req = R_Join req.
Proof.
  unfold route.
  destruct (getitem "kind" req) as [kind|]; [|left; eauto].
  destruct (eq_str kind "signal").
  - destruct (getitem "status" req) as [status|]; [|left; eauto].
    destruct (eq_str status "cancel"); auto.
  - destruct (eq_str kind "command"); [auto | left; eauto].
Qed.

Lemma step_reader_Inv s l s' :
  Inv s -> _handle_incoming s = Some (l, s') -> Inv s'.
Proof.
  destruct s as [inp ev q u out lg r m].
  unfold Inv, working, _handle_incoming, put, maxsize; simpl.
  intros HI H.
  destruct r; simpl in *.
  - (* recv *)
    inversion H; subst; clear H.
    destruct inp as [|[[|]|]]; simpl; auto.
  - inversion H; subst; clear H; simpl.
    destruct (route_cases req) as [[st [msg ->]]|[->|[->| ->]]]; auto.
  - inversion H; subst; clear H; simpl. auto.
  - inversion H; subst; clear H; simpl. auto.
  - destruct (Nat.eqb_spec u 0); [|discriminate].
    inversion H; subst; clear H; simpl.
    destruct HI as [(c & _ & _ & ?)|(? & ? & ? & ?)]; [discriminate|].
    destruct m; simpl in *; try discriminate; try congruence; auto.
  - inversion H; subst; clear H; simpl. auto.
  - destruct HI as (-> & -> & ->). simpl in H.
    inversion H; subst; clear H; simpl. left; eauto.
  - inversion H; subst; clear H; simpl. auto.
  - inversion H; subst; clear H; simpl. auto.
  - destruct (Nat.ltb_spec (List.length q) 1); [|discriminate].
    inversion H; subst; clear H; simpl.
    destruct q; [|simpl in *; lia].
    destruct HI as [(c & ? & _)|(_ & ? & ? & ?)]; [discriminate|].
    left. simpl. repeat split; auto.
  - discriminate.
Qed.

Ltac crush_inv :=
  repeat match goal with
         | H : _ /\ _ |- _ => destruct H
         | H : _ \/ _ |- _ => destruct H
         | H : exists _, _ |- _ => destruct H
         end;
  subst; simpl in *; try discriminate; try congruence; try lia; auto;
  try solve [ left; eauto
            | left; repeat split; auto; try discriminate; try congruence; try lia
            | right; repeat split; auto; try discriminate; try congruence; try lia
            | repeat split; auto; try discriminate; try congruence; try lia ].

Section Invariant.

Variable handler : Handler.

Lemma step_main_Inv s l s' :
  Inv s -> process handler s = Some (l, s') -> Inv s'.
Proof.
  destruct s as [inp ev q u out lg r m].
  unfold Inv, working, process; simpl.
  intros HI H.
  destruct m; simpl in *.
  - (* get *)
    destruct q as [|item rest]; [discriminate|].
    inversion H; subst; clear H.
    destruct r; simpl in *; crush_inv;
      match goal with H : _ :: _ = _ |- _ => inversion H; subst end; crush_inv.
  - (* call *)
    destruct (getitem "action" req); inversion H; subst; clear H;
      destruct r; simpl in *; crush_inv.
  - (* run *)
    destruct p; inversion H; subst; clear H; destruct r; simpl in *; crush_inv.
  - inversion H; subst; clear H; destruct r; simpl in *; crush_inv.
  - (* task_done *)
    destruct u; inversion H; subst; clear H; destruct r; simpl in *; crush_inv.
  - destruct r; try discriminate. inversion H; subst; clear H; simpl in *; crush_inv.
  - discriminate.
  - discriminate.
Qed.

Lemma step_Inv t s l s' : Inv s -> step handler t s = Some (l, s') -> Inv s'.
Proof.
  destruct t; simpl; [apply step_reader_Inv | apply step_main_Inv].
Qed.

Lemma run_Inv sched : forall s, Inv s -> Inv (state_after handler sched s).
Proof.
  unfold state_after.
  induction sched as [|t rest IH]; intros s HI; simpl; auto.
  destruct (step handler t s) as [[l s']|] eqn:E.
  - specialize (IH s' (step_Inv _ _ _ _ HI E)).
    destruct (run handler rest s'); auto.
  - auto.
Qed.

End Invariant.

(** ** Executions *)

Section Executions.

Variable handler : Handler.

Lemma run_app (a b : list tid) : forall s,
  run handler (a ++ b) s =
  (fst (run handler a s) ++ fst (run handler b (snd (run handler a s))),
   snd (run handler b (snd (run handler a s)))).
Proof.
  induction a as [|t a IH]; intros s; simpl.
  - destruct (run handler b s); reflexivity.
  - destruct (step handler t s) as [[l s']|]; [|apply IH].
    rewrite IH. destruct (run handler a s'); reflexivity.
Qed.

Lemma trace_of_app a b s :
  trace_of handler (a ++ b) s =
  trace_of handler a s ++ trace_of handler b (state_after handler a s).
Proof. unfold trace_of, state_after. rewrite run_app. reflexivity. Qed.

Lemma state_after_app a b s :
  state_after handler (a ++ b) s =
  state_after handler b (state_after handler a s).
Proof. unfold state_after. rewrite run_app. reflexivity. Qed.

Lemma trace_of_one t s :
  trace_of handler [t] s =
  match step handler t s with Some (l, _) => [(t, l)] | None => [] end.
Proof. unfold trace_of. simpl. destruct (step handler t s) as [[l s']|]; auto. Qed.

Lemma state_after_one t s :
  state_after handler [t] s =
  match step handler t s with Some (_, s') => s' | None => s end.
Proof. unfold state_after. simpl. destruct (step handler t s) as [[l s']|]; auto. Qed.

(** Induction along an execution, with its history: what holds of the empty
    history and is kept by every transition out of a state of the
    invariant holds after every schedule. *)
Lemma execution_ind (P : list (tid * label) -> state -> Prop) (s0 : state) :
  Inv s0 ->
  P [] s0 ->
  (forall tr s t l s',
      Inv s -> P tr s -> step handler t s = Some (l, s') ->
      P (tr ++ [(t, l)]) s') ->
  forall sched, P (trace_of handler sched s0) (state_after handler sched s0).
Proof.
  intros HI H0 Hstep sched.
  induction sched as [|t sched IH] using rev_ind; [exact H0|].
  rewrite trace_of_app, state_after_app, trace_of_one, state_after_one.
  pose proof (run_Inv handler sched s0 HI) as HI'.
  destruct (step handler t (state_after handler sched s0)) as [[l s']|] eqn:E.
  - eapply Hstep; eauto.
  - rewrite app_nil_r. exact IH.
Qed.

End Executions.

(** ** Progress: the session cannot get stuck, and it ends *)

Section Progress.

Variable handler : Handler.

Arguments cost_run : simpl never.
Arguments cost_call : simpl never.

Lemma step_reader_measure s l s' :
  _handle_incoming s = Some (l, s') -> measure handler s' < measure handler s.
Proof.
  destruct s as [inp ev q u out lg r m].
  unfold _handle_incoming, put, maxsize, measure; simpl.
  intros H. destruct r; simpl in *.
  - inversion H; subst; clear H.
    destruct inp as [|[[|]|] rest]; simpl; lia.
  - inversion H; subst; clear H; simpl.
    destruct (route_cases req) as [[st [msg ->]]|[->|[->| ->]]]; simpl; lia.
  - inversion H; subst; clear H; simpl. lia.
  - inversion H; subst; clear H; simpl. lia.
  - destruct (Nat.eqb u 0); [|discriminate].
    inversion H; subst; clear H; simpl. lia.
  - inversion H; subst; clear H; simpl. lia.
  - destruct (Nat.ltb (List.length q) 1); [|discriminate].
    inversion H; subst; clear H; simpl.
    rewrite map_app, list_sum_app. simpl. lia.
  - inversion H; subst; clear H; simpl. lia.
  - inversion H; subst; clear H; simpl. lia.
  - destruct (Nat.ltb (List.length q) 1); [|discriminate].
    inversion H; subst; clear H; simpl.
    rewrite map_app, list_sum_app. simpl. lia.
  - discriminate.
Qed.

Lemma step_main_measure s l s' :
  process handler s = Some (l, s') -> measure handler s' < measure handler s.
Proof.
  destruct s as [inp ev q u out lg r m].
  unfold process, measure; simpl.
  intros H. destruct m; simpl in *.
  - destruct q as [|[req|] rest]; [discriminate| |];
      inversion H; subst; clear H; simpl; unfold cost_call; lia.
  - unfold cost_call.
    destruct (getitem "action" req); inversion H; subst; clear H; simpl; lia.
  - unfold cost_run.
    destruct p; inversion H; subst; clear H; simpl; unfold cost_run; try lia.
    destruct ev; lia.
  - inversion H; subst; clear H; simpl. lia.
  - destruct u; inversion H; subst; clear H; simpl; lia.
  - destruct r; try discriminate. inversion H; subst; clear H; simpl. lia.
  - discriminate.
  - discriminate.
Qed.

Lemma step_measure t s l s' :
  step handler t s = Some (l, s') -> measure handler s' < measure handler s.
Proof.
  destruct t; simpl; [apply step_reader_measure | apply step_main_measure].
Qed.

(** No schedule makes more transitions than the measure allows. *)
Lemma trace_bounded sched : forall s,
  List.length (trace_of handler sched s) + measure handler (state_after handler sched s)
  <= measure handler s.
Proof.
  unfold trace_of, state_after.
  induction sched as [|t rest IH]; intros s; simpl; [lia|].
  destruct (step handler t s) as [[l s']|] eqn:E; [|apply IH].
  specialize (IH s'). apply step_measure in E.
  destruct (run handler rest s'); simpl in *. lia.
Qed.

(** A state of the invariant in which [process] has not returned lets at
    least one thread move. *)
Lemma not_stuck s :
  Inv s -> main s <> M_Returned ->
  exists t l s', step handler t s = Some (l, s').
Proof.
  destruct s as [inp ev q u out lg r m].
  unfold Inv, working; simpl. intros HI Hm.
  destruct m; try congruence.
  - (* the dispatcher waits in get() *)
    destruct q as [|item rest].
    + exists Reader. simpl. unfold _handle_incoming, put, maxsize; simpl.
      destruct r; simpl in *; eauto; crush_inv; eauto.
    + exists Dispatcher. simpl. unfold process; simpl. eauto.
  - exists Dispatcher. simpl. unfold process; simpl.
    destruct (getitem "action" req); eauto.
  - exists Dispatcher. simpl. unfold process; simpl. destruct p; eauto.
  - exists Dispatcher. simpl. unfold process; simpl. eauto.
  - exists Dispatcher. simpl. unfold process; simpl. destruct u; eauto.
  - exists Dispatcher. simpl. unfold process; simpl.
    destruct r; simpl in *; eauto; crush_inv.
  - destruct r; simpl in *; crush_inv.
Qed.

(** From every state of the invariant some schedule lets [process] return. *)
Lemma can_return_from : forall n s,
  measure handler s <= n -> Inv s ->
  exists sched, main (state_after handler sched s) = M_Returned.
Proof.
  induction n as [|n IH]; intros s Hn HI.
  - destruct (main s) eqn:Em;
      try (exists []; exact Em);
      destruct (not_stuck s HI ltac:(congruence)) as (t & l & s' & E);
      apply step_measure in E; lia.
  - destruct (main s) eqn:Em;
      try (exists []; exact Em);
      destruct (not_stuck s HI ltac:(congruence)) as (t & l & s' & E);
      (destruct (IH s') as [sched Hs];
       [ pose proof (step_measure _ _ _ _ E); lia
       | eapply step_Inv; eauto
       | exists (t :: sched); unfold state_after in *; simpl; rewrite E;
         destruct (run handler sched s'); exact Hs ]).
Qed.

Lemma can_return s :
  Inv s -> exists sched, main (state_after handler sched s) = M_Returned.
Proof. intros HI. eapply can_return_from; eauto. Qed.

End Progress.

(** ** Histories *)

Arguments route : simpl never.
Arguments after_recv : simpl never.

(** Case analysis on one transition [H : step _ t s = Some (l, s')]. *)
Ltac step_cases H :=
  match type of H with
  | step _ ?t _ = Some _ => destruct t; simpl in H
  | _ => idtac
  end;
  match type of H with
  | _handle_incoming ?s = Some _ =>
      destruct s as [inp ev q u out lg r m];
      unfold _handle_incoming, recv, put, maxsize in H; simpl in H;
      destruct r; simpl in H;
      repeat match type of H with
             | context [if ?c then _ else _] => destruct c eqn:?; simpl in H
             end;
      try discriminate
  | process _ ?s = Some _ =>
      destruct s as [inp ev q u out lg r m];
      unfold process in H; simpl in H;
      destruct m; simpl in H;
      repeat match type of H with
             | (match ?x with _ => _ end) = _ => destruct x eqn:?
             end;
      try discriminate
  end;
  inversion H; subst; clear H;
  try match goal with
      | item : option Dict |- _ => destruct item
      end.

Lemma count_app {A} (p : A -> bool) (l1 l2 : list A) :
  count p (l1 ++ l2) = count p l1 + count p l2.
Proof. unfold count. rewrite filter_app, length_app. reflexivity. Qed.

Lemma count_one {A} (p : A -> bool) (x : A) :
  count p [x] = b2n (p x).
Proof. unfold count. simpl. destruct (p x); reflexivity. Qed.

Lemma snoc_split {A} (tr tr1 tr2 : list A) (x y : A) :
  tr ++ [x] = tr1 ++ y :: tr2 ->
  (tr2 = [] /\ tr1 = tr /\ x = y) \/
  (exists tr2', tr2 = tr2' ++ [x] /\ tr = tr1 ++ y :: tr2').
Proof.
  intros H.
  assert (Hc : tr2 = [] \/ exists tr2' z, tr2 = tr2' ++ [z]).
  { destruct tr2 as [|a l]; [auto|right].
    destruct (@exists_last _ (a :: l)) as (l' & z & E); [discriminate|eauto]. }
  destruct Hc as [-> | (tr2' & z & ->)].
  - left. apply app_inj_tail in H. destruct H; auto.
  - right. exists tr2'.
    change (tr1 ++ y :: tr2' ++ [z]) with (tr1 ++ (y :: tr2') ++ [z]) in H.
    rewrite app_assoc in H. apply app_inj_tail in H.
    destruct H as [-> ->]. auto.
Qed.

Section SingleFlight.

Variable handler : Handler.

Lemma step_reader_main s l s' :
  _handle_incoming s = Some (l, s') -> main s' = main s.
Proof. intros H. step_cases H; reflexivity. Qed.

Lemma step_in_flight t s l s' :
  Inv s -> step handler t s = Some (l, s') ->
  in_flight s' + b2n (is_ack (t, l)) = in_flight s + b2n (is_put_command (t, l))
  /\ b2n (holds_command (main s')) + b2n (is_ack (t, l))
     = b2n (holds_command (main s)) + b2n (is_get_command (t, l)).
Proof.
  intros HI H. unfold in_flight, Inv, working in *.
  step_cases H; simpl in *; try (split; lia);
    try match goal with r : reader_pc |- _ => destruct r end; crush_inv.
Qed.

Lemma balanced_run input sched :
  balanced (trace_of handler sched (init input))
           (state_after handler sched (init input)).
Proof.
  apply execution_ind.
  - apply Inv_init.
  - repeat split; try reflexivity.
    intros [|? ?] ? ? H; discriminate.
  - intros tr s t l s' HI (Hp & Hg & Hprev) Hstep.
    destruct (step_in_flight _ _ _ _ HI Hstep) as [Hf Hh].
    unfold balanced. rewrite !count_app, !count_one.
    repeat split.
    + lia.
    + lia.
    + intros tr1 c tr2 E.
      apply snoc_split in E.
      destruct E as [(_ & -> & E) | (tr2' & _ & E)]; [|eauto].
      inversion E; subst.
      assert (in_flight s = 0).
      { unfold in_flight. simpl in Hstep. unfold Inv in HI.
        step_cases Hstep. destruct HI as (-> & -> & _). reflexivity. }
      lia.
Qed.

(** While the dispatcher holds a command it is never blocked, and
    [task_done()] comes after at most [cost_main] of its own moves,
    whatever the reader does in between. *)
Lemma ack_within : forall sched s,
  Inv s -> holds_command (main s) = true ->
  cost_main handler (main s) <= turns Dispatcher sched ->
  In (Dispatcher, L_TaskDone) (trace_of handler sched s).
Proof.
  unfold trace_of.
  induction sched as [|t rest IH]; intros s HI Hh Hc.
  - destruct (main s); simpl in *; try discriminate;
      unfold turns, count, cost_call, cost_run in *; simpl in *; lia.
  - simpl. destruct (step handler t s) as [[l s']|] eqn:E.
    + assert (HI' := step_Inv _ _ _ _ _ HI E).
      destruct t.
      * (* the reader moves: the dispatcher stays where it is *)
        simpl in E. apply step_reader_main in E.
        specialize (IH s' HI'). rewrite E in IH. specialize (IH Hh Hc).
        destruct (run handler rest s'). right. exact IH.
      * destruct (is_ack (Dispatcher, l)) eqn:Ea.
        { destruct l; try discriminate.
          destruct (run handler rest s'). left. reflexivity. }
        assert (Hs : holds_command (main s') = true /\
                     S (cost_main handler (main s')) <= cost_main handler (main s)).
        { clear IH Hc. unfold Inv, working in HI. simpl in E.
          step_cases E; simpl in *; try discriminate;
            unfold cost_call, cost_run; simpl;
            try (rewrite ?Heqo; split; [reflexivity | lia]);
            try (split; [reflexivity | destruct ev; lia]);
            try (destruct r; crush_inv). }
        destruct Hs as [Hh' Hc'].
        specialize (IH s' HI' Hh').
        unfold turns, count in *. simpl in Hc.
        destruct (run handler rest s'). right. apply IH. lia.
    + destruct t.
      * apply IH; auto.
      * (* the dispatcher cannot be blocked here *)
        exfalso. simpl in E. unfold process in E.
        destruct (main s); try discriminate.
        -- destruct (getitem "action" req); discriminate.
        -- destruct p; discriminate.
        -- destruct (unfinished_tasks s); discriminate.
Qed.

End SingleFlight.

(** ** At most one command in flight *)

Lemma Inv_bounds s :
  Inv s ->
  List.length (cmd_queue s) <= 1 /\ in_flight s <= 1 /\ main s <> M_Raised.
Proof.
  destruct s as [inp ev q u out lg r m].
  unfold Inv, working, in_flight; simpl. intros HI.
  destruct r; crush_inv; destruct m; simpl in *; try discriminate; auto;
    repeat split; auto; discriminate.
Qed.

(** C1.  After any schedule on any input: the queue holds at most one item
    and at most one command is handed over and not yet acknowledged; every
    [put] of a command comes when all commands put before it have been
    acknowledged with [task_done()]; every command taken out of the queue
    has been acknowledged or is still with the dispatcher; and a command
    the dispatcher holds (in the call, or about to send the reply of a
    returned value, of an [RpcException] or of any other exception) is
    acknowledged within [cost_main] moves of the dispatcher, which the
    reader cannot block; [task_done()] never finds the counter at zero. *)
Theorem single_command_in_flight
  (handler : Handler) (input : list request) (sched : list tid) :
  let tr := trace_of handler sched (init input) in
  let s := state_after handler sched (init input) in
  List.length (cmd_queue s) <= 1 /\ in_flight s <= 1 /\
  (forall tr1 c tr2,
      tr = tr1 ++ (Reader, L_Put (Some c)) :: tr2 ->
      count is_put_command tr1 = count is_ack tr1) /\
  count is_get_command tr = count is_ack tr + b2n (holds_command (main s)) /\
  (holds_command (main s) = true ->
   forall more,
     cost_main handler (main s) <= turns Dispatcher more ->
     In (Dispatcher, L_TaskDone) (trace_of handler more s)) /\
  main s <> M_Raised.
Proof.
  intros tr s.
  assert (HI : Inv s) by (apply run_Inv, Inv_init).
  destruct (Inv_bounds s HI) as (Hq & Hf & Hr).
  destruct (balanced_run handler input sched) as (_ & Hg & Hprev).
  repeat split; auto.
  intros Hh more Hm. apply ack_within; auto.
Qed.

Lemma single_command_in_flight_witness :
  In (Dispatcher, L_TaskDone)
     (trace_of echo_handler (dispatcher_turns 6)
        (state_after echo_handler (reader_turns 5 ++ dispatcher_turns 2)
           (init [Some list_command]))).
Proof.
  apply (proj1 (proj2 (proj2 (proj2 (proj2
           (single_command_in_flight echo_handler [Some list_command]
              (reader_turns 5 ++ dispatcher_turns 2))))))).
  - reflexivity.
  - vm_compute. lia.
Defined.

(** ** Splitting an execution at one of its transitions *)

Section Splitting.

Variable handler : Handler.

Lemma trace_split : forall sched s tr1 t l tr2,
  trace_of handler sched s = tr1 ++ (t, l) :: tr2 ->
  exists sched1 sched2 s2,
    trace_of handler sched1 s = tr1 /\
    step handler t (state_after handler sched1 s) = Some (l, s2) /\
    trace_of handler sched2 s2 = tr2 /\
    state_after handler sched2 s2 = state_after handler sched s.
Proof.
  unfold trace_of, state_after.
  induction sched as [|t0 rest IH]; intros s tr1 t l tr2 E; simpl in E.
  - destruct tr1; discriminate.
  - destruct (step handler t0 s) as [[l0 s0]|] eqn:E0.
    + destruct (run handler rest s0) as [tr' sf] eqn:Er. simpl in E.
      destruct tr1 as [|e tr1']; simpl in E; inversion E; subst; clear E.
      * exists [], rest, s0. simpl. rewrite E0, Er. auto.
      * specialize (IH s0 tr1' t l tr2). rewrite Er in IH.
        destruct (IH eq_refl) as (sched1 & sched2 & s2 & H1 & H2 & H3 & H4).
        exists (t0 :: sched1), sched2, s2. simpl. rewrite E0, Er.
        destruct (run handler sched1 s0); simpl in *. subst. auto.
    + destruct (IH s tr1 t l tr2 E) as (sched1 & sched2 & s2 & H1 & H2 & H3 & H4).
      exists (t0 :: sched1), sched2, s2. simpl. rewrite E0. auto.
Qed.

(** Every frame in [outbound] was sent by a transition, in that order. *)
Lemma outbound_sent sched : forall s,
  outbound (state_after handler sched s)
  = outbound s ++ sent (trace_of handler sched s).
Proof.
  unfold trace_of, state_after, sent.
  induction sched as [|t rest IH]; intros s; simpl.
  - rewrite app_nil_r. reflexivity.
  - destruct (step handler t s) as [[l s']|] eqn:E; [|apply IH].
    specialize (IH s'). destruct (run handler rest s') as [tr sf]. simpl in *.
    rewrite IH. clear IH.
    step_cases E; simpl; rewrite <- ?app_assoc; reflexivity.
Qed.

End Splitting.

(** ** Order of dispatch *)

Section Order.

Variable handler : Handler.

Lemma queued_app q1 q2 : queued (q1 ++ q2) = queued q1 ++ queued q2.
Proof. unfold queued. apply flat_map_app. Qed.

Lemma reader_upcoming_route req input :
  reader_upcoming (route req) input = enqueues (route req) ++ commands_read input.
Proof.
  destruct (route_cases req) as [[st [msg ->]]|[->|[->| ->]]]; reflexivity.
Qed.

Lemma after_recv_cases r :
  (exists req, r = Some req /\ truthy r = true /\ after_recv r = R_Route req)
  \/ (truthy r = false /\ after_recv r = R_ExitSet).
Proof.
  unfold after_recv. destruct r as [[|p d]|]; simpl; eauto.
Qed.

Lemma step_upcoming t s l s' :
  step handler t s = Some (l, s') ->
  upcoming s = dequeued [(t, l)] ++ upcoming s'.
Proof.
  intros H. unfold upcoming.
  step_cases H; simpl; rewrite ?queued_app, ?app_nil_r; try reflexivity.
  - (* recv *)
    destruct inp as [|r rest]; simpl.
    + reflexivity.
    + destruct (after_recv_cases r) as [(req & _ & _ & ->) | (_ & ->)];
        reflexivity.
  - rewrite reader_upcoming_route. reflexivity.
  - simpl. rewrite <- app_assoc. reflexivity.
Qed.

(** The commands taken by the dispatcher so far, then those still to come,
    are the commands of the input in their order. *)
Lemma dequeued_upcoming sched : forall s,
  dequeued (trace_of handler sched s) ++ upcoming (state_after handler sched s)
  = upcoming s.
Proof.
  unfold trace_of, state_after.
  induction sched as [|t rest IH]; intros s; simpl; [reflexivity|].
  destruct (step handler t s) as [[l s']|] eqn:E; [|apply IH].
  specialize (IH s'). rewrite (step_upcoming _ _ _ _ E).
  destruct (run handler rest s') as [tr sf]. simpl in *.
  unfold dequeued in *. simpl. rewrite <- IH, <- !app_assoc. reflexivity.
Qed.

Lemma calls_app l1 l2 : calls (l1 ++ l2) = calls l1 ++ calls l2.
Proof. unfold calls. rewrite filter_app, map_app. reflexivity. Qed.

Lemma step_awaiting t s l s' :
  step handler t s = Some (l, s') ->
  exists pre, awaiting s = pre ++ awaiting s' /\
              calls pre = invocations [(t, l)].
Proof.
  intros H. pose proof (step_upcoming _ _ _ _ H) as Hu.
  unfold awaiting. rewrite Hu. clear Hu.
  step_cases H; simpl; try (exists []; split; reflexivity).
  - (* the call *)
    exists [req]. split; [reflexivity|].
    unfold calls, call_args, has_action. simpl. rewrite Heqo. simpl.
    rewrite Heqo. reflexivity.
  - (* no action: no call *)
    exists [req]. split; [reflexivity|].
    unfold calls, has_action. simpl. rewrite Heqo. reflexivity.
Qed.


(** The handler calls made so far are, in order, those of the leading
    commands of the input; the rest still awaits its call. *)
Lemma invocations_awaiting sched : forall s,
  exists pre,
    awaiting s = pre ++ awaiting (state_after handler sched s) /\
    calls pre = invocations (trace_of handler sched s).
Proof.
  unfold trace_of, state_after.
  induction sched as [|t rest IH]; intros s; simpl.
  - exists []. split; reflexivity.
  - destruct (step handler t s) as [[l s']|] eqn:E; [|apply IH].
    destruct (step_awaiting _ _ _ _ E) as (pre1 & H1 & H2).
    destruct (IH s') as (pre2 & H3 & H4).
    destruct (run handler rest s') as [tr sf]. simpl in *.
    exists (pre1 ++ pre2). split.
    + rewrite H1, H3, app_assoc. reflexivity.
    + rewrite calls_app, H2, H4, app_nil_r. reflexivity.
Qed.

End Order.

(** ** Sessions of valid command frames *)

Section ValidCommands.

Variable handler : Handler.

Lemma eq_str_true v lit : eq_str v lit = true -> v = JStr lit.
Proof.
  destruct v; simpl; try discriminate.
  intros H. apply String.eqb_eq in H. congruence.
Qed.

Lemma valid_route req : is_valid_command req = true -> route req = R_Join req.
Proof.
  unfold is_valid_command, route.
  destruct (getitem "kind" req) as [k|]; [|discriminate].
  intros H. apply andb_prop in H. destruct H as [Hk _].
  rewrite Hk. apply eq_str_true in Hk. subst k. reflexivity.
Qed.

Lemma valid_truthy req : is_valid_command req = true -> truthy (Some req) = true.
Proof. destruct req; [discriminate | reflexivity]. Qed.

Lemma valid_has_action req : is_valid_command req = true -> has_action req = true.
Proof.
  unfold is_valid_command. destruct (getitem "kind" req); [|discriminate].
  intros H. apply andb_prop in H. tauto.
Qed.

Lemma commands_read_valid cmds :
  forallb is_valid_command cmds = true ->
  commands_read (map Some cmds) = cmds.
Proof.
  induction cmds as [|d cmds IH]; simpl; intros H; [reflexivity|].
  apply andb_prop in H. destruct H as [Hd Hr].
  unfold after_recv. rewrite (valid_truthy _ Hd), (valid_route _ Hd).
  simpl. rewrite IH; auto.
Qed.

Lemma calls_valid cmds :
  forallb has_action cmds = true -> calls cmds = map call_args cmds.
Proof.
  unfold calls. intros H. f_equal.
  induction cmds as [|d cmds IH]; simpl in *; [reflexivity|].
  apply andb_prop in H. destruct H as [-> Hr]. rewrite IH; auto.
Qed.

Lemma valid_request_Some cmds :
  forallb valid_request (map Some cmds) = forallb is_valid_command cmds.
Proof. induction cmds as [|d cmds IH]; simpl; congruence. Qed.

Lemma commands_only_init cmds :
  forallb is_valid_command cmds = true ->
  commands_only (init (map Some cmds)).
Proof.
  intros H. unfold commands_only, awaiting, upcoming. simpl.
  rewrite (commands_read_valid _ H). repeat split.
  - rewrite valid_request_Some. exact H.
  - rewrite forallb_forall in *. intros d Hd. apply valid_has_action; auto.
Qed.

Lemma step_commands_only t s l s' :
  commands_only s -> step handler t s = Some (l, s') -> commands_only s'.
Proof.
  intros (Hin & Hr & Ha) H. unfold commands_only.
  destruct (step_awaiting _ _ _ _ _ H) as (pre & Hpre & _).
  rewrite Hpre, forallb_app in Ha. apply andb_prop in Ha.
  destruct Ha as [_ Ha]. split; [|split]; [| |exact Ha]; clear Ha Hpre.
  - step_cases H; simpl in *; auto.
    destruct inp; simpl in *; auto. apply andb_prop in Hin. tauto.
  - step_cases H; simpl in *; auto; try discriminate.
    + destruct inp as [|[d|] rest]; simpl in *; auto; try discriminate.
      apply andb_prop in Hin. destruct Hin as [Hd _].
      unfold after_recv. rewrite (valid_truthy _ Hd). exact Hd.
    + rewrite (valid_route _ Hr). reflexivity.
Qed.

Lemma is_result_reply o : is_result_frame (reply_frame o) = true.
Proof. destruct o; reflexivity. Qed.

Lemma sent_app tr1 tr2 : sent (tr1 ++ tr2) = sent tr1 ++ sent tr2.
Proof. unfold sent. apply flat_map_app. Qed.

Lemma count_invocations tr : List.length (invocations tr) = count is_invoke tr.
Proof.
  unfold invocations, count.
  induction tr as [|[[|] l] tr IH]; simpl; auto.
  destruct l; simpl; auto.
Qed.

Lemma step_served t s l s' :
  commands_only s -> step handler t s = Some (l, s') ->
  b2n (is_invoke (t, l)) + b2n (answering (main s))
  = b2n (is_result (t, l)) + b2n (answering (main s')) /\
  count is_result_frame (sent [(t, l)]) = b2n (is_result (t, l)).
Proof.
  intros (_ & Hr & Ha) H. unfold awaiting in Ha.
  step_cases H; simpl in *; try discriminate; auto.
  - (* a command without action is not among valid ones *)
    unfold has_action in Ha. rewrite Heqo in Ha. discriminate.
  - rewrite count_one, is_result_reply. auto.
Qed.

Lemma served_run cmds sched :
  forallb is_valid_command cmds = true ->
  served (trace_of handler sched (init (map Some cmds)))
         (state_after handler sched (init (map Some cmds))).
Proof.
  intros Hv. apply execution_ind.
  - apply Inv_init.
  - split; [apply commands_only_init; exact Hv | split; reflexivity].
  - intros tr s t l s' _ (Hc & Hi & Hs) Hstep.
    destruct (step_served _ _ _ _ Hc Hstep) as [H1 H2].
    split; [eapply step_commands_only; eauto|].
    rewrite sent_app, !count_app, !count_one. lia.
Qed.

End ValidCommands.

(** ** Malformed frames *)

Section Malformed.

Variable handler : Handler.

Lemma eq_str_command_signal k :
  eq_str k "command" = true -> eq_str k "signal" = false.
Proof. intros H. apply eq_str_true in H. subst. reflexivity. Qed.




Lemma pending_complaint_route req :
  pending_complaint (route req) = complaint req.
Proof.
  unfold complaint.
  destruct (route_cases req) as [[st [msg ->]]|[->|[->| ->]]]; reflexivity.
Qed.

Lemma step_complaints t s l s' :
  step handler t s = Some (l, s') ->
  reader_sent [(t, l)] ++ pending_complaint (reader s')
  = pending_complaint (reader s) ++ flat_map complaint (received [(t, l)]).
Proof.
  intros H. step_cases H; simpl; rewrite ?app_nil_r; try reflexivity.
  - destruct (after_recv_cases (match inp with [] => None | r :: _ => r end))
      as [(req & _ & _ & ->) | (_ & ->)]; simpl; rewrite ?app_nil_r; reflexivity.
  - apply pending_complaint_route.
Qed.

Lemma complaints_run input sched :
  reader_sent (trace_of handler sched (init input))
  ++ pending_complaint (reader (state_after handler sched (init input)))
  = flat_map complaint (received (trace_of handler sched (init input))).
Proof.
  apply (execution_ind handler
           (fun tr s => reader_sent tr ++ pending_complaint (reader s)
                        = flat_map complaint (received tr))).
  - apply Inv_init.
  - reflexivity.
  - intros tr s t l s' _ IH Hstep.
    unfold reader_sent, received in *. rewrite !flat_map_app.
    rewrite <- IH, <- !app_assoc. f_equal.
    apply (step_complaints _ _ _ _ Hstep).
Qed.

End Malformed.




(** ** After the end of the stream *)

Section Closing.

Variable handler : Handler.

Lemma step_exiting t s l s' :
  exiting (reader s) = true -> step handler t s = Some (l, s') ->
  exiting (reader s') = true /\
  reader_view [(t, l)] ++ exit_script (reader s') = exit_script (reader s).
Proof.
  intros He H. step_cases H; simpl in *; try discriminate; auto.
Qed.

(** Once out of its loop the reader sets the token, puts the sentinel, and
    does nothing else. *)
Lemma exiting_run sched : forall s,
  exiting (reader s) = true ->
  exiting (reader (state_after handler sched s)) = true /\
  reader_view (trace_of handler sched s)
  ++ exit_script (reader (state_after handler sched s))
  = exit_script (reader s).
Proof.
  unfold trace_of, state_after.
  induction sched as [|t rest IH]; intros s He; simpl; [auto|].
  destruct (step handler t s) as [[l s']|] eqn:E; [|apply IH; exact He].
  destruct (step_exiting _ _ _ _ He E) as [He' Hv].
  destruct (IH s' He') as [Hf Hr].
  destruct (run handler rest s') as [tr sf]. simpl in *.
  split; [exact Hf|].
  rewrite <- Hv, <- Hr. unfold reader_view. simpl.
  rewrite <- !app_assoc. reflexivity.
Qed.

Lemma step_quiet t s l s' :
  exiting (reader s) = true -> reply_due s = false ->
  step handler t s = Some (l, s') ->
  reply_due s' = false /\ sent [(t, l)] = [].
Proof.
  unfold reply_due. intros He Hd H.
  step_cases H; simpl in *; rewrite ?orb_true_r in *; try discriminate; auto.
  apply orb_false_elim in Hd. destruct Hd as [Hq Hm].
  rewrite existsb_app, Hq, Hm. auto.
Qed.

(** With the reader out of its loop and no result frame due, nothing is
    sent any more. *)
Lemma quiet_run sched : forall s,
  exiting (reader s) = true -> reply_due s = false ->
  sent (trace_of handler sched s) = [].
Proof.
  unfold trace_of.
  induction sched as [|t rest IH]; intros s He Hd; simpl; [reflexivity|].
  destruct (step handler t s) as [[l s']|] eqn:E; [|apply IH; auto].
  destruct (step_quiet _ _ _ _ He Hd E) as [Hd' Hs].
  destruct (step_exiting _ _ _ _ He E) as [He' _].
  specialize (IH s' He' Hd').
  destruct (run handler rest s') as [tr sf]. simpl in *.
  unfold sent in *. simpl. rewrite IH, app_nil_r in *. exact Hs.
Qed.

Lemma step_last_reply t s l s' :
  Inv s -> exiting (reader s) = true ->
  step handler t s = Some (l, s') ->
  count is_result_frame (sent [(t, l)]) + b2n (reply_due s')
  <= b2n (reply_due s) /\
  (forall f, l = L_Send f ->
             t = Dispatcher /\ (is_result_frame f = true -> reply_due s' = false)).
Proof.
  unfold reply_due, Inv, working. intros HI He H.
  step_cases H; simpl in *; try discriminate;
    rewrite ?existsb_app, ?orb_true_r, ?orb_false_r, ?count_one,
            ?is_result_reply;
    simpl; rewrite ?orb_false_r;
    (split;
     [ try lia
     | intros f Hf; inversion Hf; subst; clear Hf;
       split; try reflexivity; intros Hr; try discriminate Hr ]).
  all: destruct r; simpl in *; try discriminate He; crush_inv.
Qed.

(** With the reader out of its loop, at most one more result frame is
    sent, only the dispatcher sends, and nothing follows a result frame. *)
Lemma last_reply_run sched : forall s,
  Inv s -> exiting (reader s) = true ->
  count is_result_frame (sent (trace_of handler sched s)) <= b2n (reply_due s)
  /\ forall tr3 t f tr4,
       trace_of handler sched s = tr3 ++ (t, L_Send f) :: tr4 ->
       t = Dispatcher /\ (is_result_frame f = true -> sent tr4 = []).
Proof.
  intros s HI He. split.
  - revert s HI He. unfold trace_of.
    induction sched as [|t rest IH]; intros s HI He; simpl.
    + unfold count. simpl. lia.
    + destruct (step handler t s) as [[l s']|] eqn:E; [|apply IH; auto].
      destruct (step_last_reply _ _ _ _ HI He E) as [Hc _].
      destruct (step_exiting _ _ _ _ He E) as [He' _].
      specialize (IH s' (step_Inv _ _ _ _ _ HI E) He').
      destruct (run handler rest s') as [tr sf]. simpl in *.
      rewrite app_nil_r in Hc. rewrite count_app. lia.
  - intros tr3 t f tr4 E.
    apply trace_split in E.
    destruct E as (sched1 & sched2 & s2 & _ & Hstep & <- & _).
    set (s1 := state_after handler sched1 s) in *.
    assert (HI1 : Inv s1) by (apply run_Inv; exact HI).
    destruct (exiting_run sched1 s He) as [He1 _]. fold s1 in He1.
    destruct (step_last_reply _ _ _ _ HI1 He1 Hstep) as [_ Hf].
    destruct (Hf f eq_refl) as [-> Hq]. split; [reflexivity|].
    intros Hr. apply quiet_run; [|auto].
    apply (step_exiting _ _ _ _ He1 Hstep).
Qed.

End Closing.

Section Leaving.

Variable handler : Handler.

Lemma step_token_settled t s l s' :
  token_settled s -> step handler t s = Some (l, s') -> token_settled s'.
Proof.
  unfold token_settled. intros HT H.
  step_cases H; simpl in *; auto.
  - destruct (after_recv_cases (match inp with [] => None | r :: _ => r end))
      as [(req & _ & _ & ->) | (_ & ->)]; exact I.
  - destruct (route_cases req) as [[st [msg ->]]|[->|[->| ->]]]; exact I.
Qed.

Lemma token_settled_run sched : forall s,
  token_settled s -> token_settled (state_after handler sched s).
Proof.
  unfold state_after.
  induction sched as [|t rest IH]; intros s HT; simpl; auto.
  destruct (step handler t s) as [[l s']|] eqn:E; [|apply IH; exact HT].
  specialize (IH s' (step_token_settled _ _ _ _ HT E)).
  destruct (run handler rest s'); exact IH.
Qed.

Lemma step_past_sentinel t s l s' :
  past_sentinel (main s) = true -> step handler t s = Some (l, s') ->
  past_sentinel (main s') = true /\
  dispatcher_view [(t, l)] ++ return_script (main s') = return_script (main s).
Proof.
  intros Hp H. step_cases H; simpl in *; try discriminate; auto.
Qed.

(** Once it holds the sentinel the dispatcher joins the reader and does
    nothing else. *)
Lemma past_sentinel_run sched : forall s,
  past_sentinel (main s) = true ->
  dispatcher_view (trace_of handler sched s)
  ++ return_script (main (state_after handler sched s))
  = return_script (main s).
Proof.
  unfold trace_of, state_after.
  induction sched as [|t rest IH]; intros s Hp; simpl; [auto|].
  destruct (step handler t s) as [[l s']|] eqn:E; [|apply IH; exact Hp].
  destruct (step_past_sentinel _ _ _ _ Hp E) as [Hp' Hv].
  specialize (IH s' Hp').
  destruct (run handler rest s') as [tr sf]. simpl in *.
  rewrite <- Hv, <- IH. unfold dispatcher_view. simpl.
  rewrite <- !app_assoc. reflexivity.
Qed.

Lemma recv_falsy s v s2 :
  _handle_incoming s = Some (L_Recv v, s2) -> truthy v = false ->
  reader s2 = R_ExitSet /\ cmd_queue s2 = cmd_queue s /\ main s2 = main s
  /\ outbound s2 = outbound s /\ event s2 = event s.
Proof.
  intros H Hr. step_cases H. simpl.
  destruct (after_recv_cases (match inp with [] => None | r :: _ => r end))
    as [(req & _ & Ht & _) | (_ & ->)]; [congruence|auto].
Qed.

Lemma idle_no_reply_due s : in_flight s = 0 -> reply_due s = false.
Proof.
  unfold in_flight, reply_due. intros H.
  assert (Hq : filter is_command (cmd_queue s) = []).
  { destruct (filter is_command (cmd_queue s)); [reflexivity|simpl in H; lia]. }
  assert (Hm : holds_command (main s) = false).
  { destruct (holds_command (main s)); [simpl in H; lia|reflexivity]. }
  replace (existsb is_command (cmd_queue s)) with false.
  - destruct (main s); simpl in *; auto; discriminate.
  - symmetry. clear - Hq. induction (cmd_queue s) as [|i q IH]; simpl in *; auto.
    destruct (is_command i); [discriminate|auto].
Qed.

Lemma returned_state s :
  Inv s -> past_sentinel (main s) = true ->
  reader s = R_Done /\ cmd_queue s = [].
Proof.
  destruct s as [inp ev q u out lg r m]. unfold Inv, working; simpl.
  intros HI Hp. destruct r; crush_inv.
Qed.

End Leaving.

(** C4.  When [recv()] gives the end of the stream, the reader does two
    more things, [event.set()] and [put(None)], and no others; from then on
    only the dispatcher sends, at most one more result frame goes out and
    no frame follows it, and none at all goes out if every command put had
    been acknowledged.  The dispatcher that takes the sentinel leaves its
    loop, joins the reader and does nothing else; when [process] has
    returned the reader is done, the token is set and the queue is empty.
    As long as [process] has not returned some thread can move, no history
    is longer than [measure] allows, and so every schedule can be
    continued until [process] returns. *)
Theorem end_of_stream_closes_session
  (handler : Handler) (input : list request) (sched : list tid) :
  let tr := trace_of handler sched (init input) in
  let s := state_after handler sched (init input) in
  (forall tr1 tr2,
      tr = tr1 ++ (Reader, L_Recv None) :: tr2 ->
      reader_view tr2 ++ exit_script (reader s) = [L_Set; L_Put None] /\
      (forall tr3 t f tr4,
          tr2 = tr3 ++ (t, L_Send f) :: tr4 ->
          t = Dispatcher /\ (is_result_frame f = true -> sent tr4 = [])) /\
      count is_result_frame (sent tr2) <= 1 /\
      (count is_put_command tr1 = count is_ack tr1 -> sent tr2 = [])) /\
  (forall tr1 tr2,
      tr = tr1 ++ (Dispatcher, L_Get None) :: tr2 ->
      dispatcher_view tr2 ++ return_script (main s) = [L_ReaderJoined]) /\
  (main s = M_Returned ->
   reader s = R_Done /\ event s = true /\ cmd_queue s = []) /\
  (main s <> M_Returned -> exists t l s', step handler t s = Some (l, s')) /\
  List.length tr <= measure handler (init input) /\
  (exists more,
      main (state_after handler (sched ++ more) (init input)) = M_Returned).
Proof.
  intros tr s.
  assert (HI : Inv s) by (apply run_Inv, Inv_init).
  split; [|split; [|split; [|split; [|split]]]].
  - intros tr1 tr2 E. apply trace_split in E.
    destruct E as (sched1 & sched2 & s2 & Htr1 & Hstep & <- & Hs).
    fold s in Hs. rewrite <- Hs.
    set (s1 := state_after handler sched1 (init input)) in *.
    assert (HI1 : Inv s1) by (apply run_Inv, Inv_init).
    assert (HI2 : Inv s2) by (eapply step_Inv; eauto).
    simpl in Hstep.
    destruct (recv_falsy _ _ _ Hstep eq_refl) as (Hr & Hq & Hm & _).
    assert (He : exiting (reader s2) = true) by (rewrite Hr; reflexivity).
    destruct (exiting_run handler sched2 s2 He) as [_ Hscript].
    rewrite Hr in Hscript.
    destruct (last_reply_run handler sched2 s2 HI2 He) as [Hcount Hlast].
    repeat split.
    + exact Hscript.
    + eapply Hlast; eauto.
    + eapply Hlast; eauto.
    + destruct (reply_due s2); simpl in Hcount; lia.
    + intros Hbal. apply quiet_run; [exact He|].
      destruct (balanced_run handler input sched1) as (Hp & _).
      fold s1 in Hp. rewrite Htr1 in Hp.
      assert (Hd : reply_due s1 = false) by (apply idle_no_reply_due; lia).
      unfold reply_due in *. rewrite Hq, Hm. exact Hd.
  - intros tr1 tr2 E. apply trace_split in E.
    destruct E as (sched1 & sched2 & s2 & _ & Hstep & <- & Hs).
    fold s in Hs. rewrite <- Hs.
    assert (Hm : main s2 = M_JoinReader).
    { simpl in Hstep. step_cases Hstep; reflexivity. }
    rewrite past_sentinel_run by (rewrite Hm; reflexivity).
    rewrite Hm. reflexivity.
  - intros Hm.
    destruct (returned_state s HI) as [Hr Hq]; [rewrite Hm; reflexivity|].
    repeat split; auto.
    assert (HT : token_settled s).
    { apply token_settled_run. exact I. }
    unfold token_settled in HT. rewrite Hr in HT. exact HT.
  - apply not_stuck. exact HI.
  - pose proof (trace_bounded handler sched (init input)). fold tr in H. lia.
  - destruct (can_return handler s HI) as [more Hm].
    exists more. rewrite state_after_app. exact Hm.
Qed.

Lemma end_of_stream_closes_session_witness :
  trace_of echo_handler (reader_turns 3 ++ dispatcher_turns 2) (init [])
  = [] ++ (Reader, L_Recv None)
       :: [(Reader, L_Set); (Reader, L_Put None);
           (Dispatcher, L_Get None); (Dispatcher, L_ReaderJoined)] /\
  count is_put_command [] = count is_ack (@nil (tid * label)) /\
  sent [(Reader, L_Set); (Reader, L_Put None);
        (Dispatcher, L_Get None); (Dispatcher, L_ReaderJoined)] = [].
Proof.
  split; [reflexivity|]. split; [reflexivity|].
  apply (proj1 (end_of_stream_closes_session echo_handler []
                  (reader_turns 3 ++ dispatcher_turns 2)) [] _ eq_refl).
  reflexivity.
Defined.

(** ** Falsy requests *)

Lemma falsy_values (v : request) :
  truthy v = false <-> v = None \/ v = Some [].
Proof.
  destruct v as [[|p d]|]; simpl; split; intros H; auto; try discriminate.
  destruct H; discriminate.
Qed.

Lemma flat_map_nil {A B} (f : A -> list B) (l : list A) :
  (forall x, In x l -> f x = []) -> flat_map f l = [].
Proof.
  induction l as [|x l IH]; simpl; intros H; [reflexivity|].
  rewrite (H x), IH; auto.
Qed.

Lemma reader_sent_view tr :
  reader_sent tr
  = flat_map (fun l => match l with L_Send f => [f] | _ => [] end)
             (reader_view tr).
Proof.
  unfold reader_sent, reader_view.
  induction tr as [|[[|] l] tr IH]; simpl; auto.
  rewrite IH. destruct l; reflexivity.
Qed.

Lemma received_view tr :
  received tr
  = flat_map (fun l => match l with
                       | L_Recv r => match after_recv r with
                                     | R_Route req => [req]
                                     | _ => []
                                     end
                       | _ => []
                       end)
             (reader_view tr).
Proof.
  unfold received, reader_view.
  induction tr as [|[[|] l] tr IH]; simpl; auto.
  rewrite IH. destruct l; simpl; rewrite ?app_nil_r; reflexivity.
Qed.

Lemma reader_view_script tr rest :
  reader_view tr ++ rest = [L_Set; L_Put None] ->
  reader_sent tr = [] /\ received tr = [].
Proof.
  intros H. rewrite reader_sent_view, received_view.
  assert (Hin : forall x, In x (reader_view tr) -> x = L_Set \/ x = L_Put None).
  { intros x Hx.
    assert (Hx' : In x [L_Set; L_Put None])
      by (rewrite <- H; apply in_or_app; auto).
    simpl in Hx'. intuition. }
  split; apply flat_map_nil; intros x Hx;
    destruct (Hin x Hx) as [-> | ->]; reflexivity.
Qed.

(** C9.  The falsy values of [recv()] are [None] and the empty mapping.
    When the reader receives one, all it does afterwards is [event.set()]
    and [put(None)]: it reads nothing more, routes nothing and sends
    nothing, so the error frames it has sent are those for the frames it
    received before; once it is done the token is set; and every schedule
    can be continued until it is done. *)
Theorem falsy_request_closes_stream
  (handler : Handler) (input : list request) (sched : list tid) :
  let tr := trace_of handler sched (init input) in
  let s := state_after handler sched (init input) in
  (forall v, truthy v = false <-> v = None \/ v = Some []) /\
  (forall tr1 v tr2,
      tr = tr1 ++ (Reader, L_Recv v) :: tr2 -> truthy v = false ->
      reader_view tr2 ++ exit_script (reader s) = [L_Set; L_Put None] /\
      reader_sent tr2 = [] /\ received tr2 = [] /\
      reader_sent tr = flat_map complaint (received tr1) /\
      (reader s = R_Done -> event s = true)) /\
  (exists more,
      reader (state_after handler (sched ++ more) (init input)) = R_Done).
Proof.
  intros tr s.
  assert (HI : Inv s) by (apply run_Inv, Inv_init).
  split; [exact falsy_values|]. split.
  - intros tr1 v tr2 E Hv.
    pose proof E as E'. apply trace_split in E.
    destruct E as (sched1 & sched2 & s2 & Htr1 & Hstep & Htr2 & Hs).
    fold s in Hs.
    set (s1 := state_after handler sched1 (init input)) in *.
    simpl in Hstep.
    destruct (recv_falsy _ _ _ Hstep Hv) as (Hr & _).
    assert (He : exiting (reader s2) = true) by (rewrite Hr; reflexivity).
    destruct (exiting_run handler sched2 s2 He) as [_ Hscript].
    rewrite Hr, Htr2, Hs in Hscript.
    destruct (reader_view_script _ _ Hscript) as [Hsent Hrecv].
    repeat split; auto.
    + rewrite E'. unfold reader_sent at 1. rewrite flat_map_app. simpl.
      fold (reader_sent tr1). fold (reader_sent tr2). rewrite Hsent, app_nil_r.
      pose proof (complaints_run handler input sched1) as Hc.
      fold s1 in Hc. rewrite Htr1 in Hc. rewrite <- Hc.
      assert (Hpc : reader s1 = R_Recv) by (step_cases Hstep; reflexivity).
      rewrite Hpc. simpl. rewrite app_nil_r. reflexivity.
    + intros Hd.
      assert (HT : token_settled s) by (apply token_settled_run; exact I).
      unfold token_settled in HT. rewrite Hd in HT. exact HT.
  - destruct (can_return handler s HI) as [more Hm].
    exists more. rewrite state_after_app. fold s.
    destruct (returned_state (state_after handler more s)) as [Hr _];
      [apply run_Inv; exact HI | rewrite Hm; reflexivity | exact Hr].
Qed.

Lemma falsy_request_closes_stream_witness :
  truthy (Some []) = false /\
  reader_sent [(Reader, L_Set); (Reader, L_Put None);
               (Dispatcher, L_Get None); (Dispatcher, L_ReaderJoined)] = [].
Proof.
  split; [reflexivity|].
  apply (proj1 (proj2 (falsy_request_closes_stream echo_handler
                         [Some []; Some list_command]
                         (reader_turns 3 ++ dispatcher_turns 2)))
               [] (Some []) _ eq_refl).
  reflexivity.
Defined.

(** ** The cancellation token *)

Section Token.

Variable handler : Handler.

Lemma cancelled_since_put_snoc tr e :
  cancelled_since_put (tr ++ [e]) = token_after (cancelled_since_put tr) e.
Proof. unfold cancelled_since_put. rewrite fold_left_app. reflexivity. Qed.

Lemma reader_view_app tr1 tr2 :
  reader_view (tr1 ++ tr2) = reader_view tr1 ++ reader_view tr2.
Proof. unfold reader_view. apply flat_map_app. Qed.

Lemma token_tracked_run input sched :
  token_tracked (trace_of handler sched (init input))
                (state_after handler sched (init input)).
Proof.
  apply execution_ind.
  - apply Inv_init.
  - repeat split.
  - intros tr s t l s' HI (HT & He & Hv) Hstep.
    split; [eapply step_token_settled; eauto|].
    unfold token_settled in HT. unfold Inv in HI.
    rewrite cancelled_since_put_snoc, reader_view_app.
    step_cases Hstep; simpl in *; rewrite ?app_nil_r; auto.
    + (* recv *)
      destruct (after_recv_cases (match inp with [] => None | r :: _ => r end))
        as [(req & _ & _ & ->) | (_ & ->)]; auto.
    + (* route *)
      destruct (route_cases req) as [[st [msg ->]]|[->|[->| ->]]]; auto.
    + (* join *)
      split; [auto|]. exists (reader_view tr). reflexivity.
    + (* clear *)
      split; [discriminate|]. destruct Hv as [pre ->].
      exists pre. rewrite <- app_assoc. reflexivity.
Qed.

(** What a check of the token finds. *)
Lemma token_check_run input sched tr1 b tr2 :
  trace_of handler sched (init input)
  = tr1 ++ (Dispatcher, L_IsSet b) :: tr2 ->
  b = cancelled_since_put tr1.
Proof.
  intros E. apply trace_split in E.
  destruct E as (sched1 & _ & s2 & <- & Hstep & _).
  destruct (token_tracked_run input sched1) as (_ & He & _).
  assert (HI : Inv (state_after handler sched1 (init input)))
    by (apply run_Inv, Inv_init).
  revert He HI Hstep.
  generalize (trace_of handler sched1 (init input)).
  generalize (state_after handler sched1 (init input)).
  intros s1 tr1 He HI Hstep. unfold Inv in HI. simpl in Hstep.
  step_cases Hstep. simpl in *.
  apply He. destruct r; auto; destruct HI as (_ & ? & _); discriminate.
Qed.

End Token.

(** C5, as the code has it.  A command is put in the queue with the token
    clear: the reader is at line 74 only with no task outstanding, right
    after [join()] and [clear()], and the token is then not set.  A check
    of the token by the handler answers whether the reader has set it (for
    a cancel signal or at the end of the stream) since the command being
    handled was put in the queue: what was set before that [put] is never
    seen. *)
Theorem token_clear_when_enqueued
  (handler : Handler) (input : list request) (sched : list tid) :
  let tr := trace_of handler sched (init input) in
  let s := state_after handler sched (init input) in
  (forall req,
      reader s = R_Put req ->
      event s = false /\ unfinished_tasks s = 0 /\
      exists pre, reader_view tr = pre ++ [L_Joined; L_Clear]) /\
  (forall tr1 b tr2,
      tr = tr1 ++ (Dispatcher, L_IsSet b) :: tr2 ->
      b = cancelled_since_put tr1).
Proof.
  intros tr s. split.
  - intros req Hr.
    assert (HI : Inv s) by (apply run_Inv, Inv_init).
    destruct (token_tracked_run handler input sched) as (HT & _ & Hv).
    fold tr s in HT, Hv. unfold token_settled in HT. unfold Inv in HI.
    rewrite Hr in *. tauto.
  - apply token_check_run.
Qed.

Lemma token_clear_when_enqueued_witness :
  event (state_after echo_handler (reader_turns 4)
           (init [Some list_command])) = false.
Proof.
  apply (proj1 (token_clear_when_enqueued echo_handler [Some list_command]
                  (reader_turns 4)) list_command).
  reflexivity.
Defined.

(** C5 as stated fails: a cancel signal that follows a command frame can
    be handled before the dispatcher takes the command, which then starts
    with the token set. *)
Lemma command_can_start_cancelled :
  cmd_queue (state_after echo_handler (reader_turns 8)
               (init [Some list_command; Some cancel_signal]))
  = [Some list_command] /\
  event (state_after echo_handler (reader_turns 8)
           (init [Some list_command; Some cancel_signal])) = true /\
  trace_of echo_handler (dispatcher_turns 3)
    (state_after echo_handler (reader_turns 8)
       (init [Some list_command; Some cancel_signal]))
  = [(Dispatcher, L_Get (Some list_command));
     (Dispatcher, L_Invoke (JStr "list") (JArr []) (JObj []));
     (Dispatcher, L_IsSet true)].
Proof. repeat split. Qed.

(** ** Inbound signals *)

Lemma token_after_no_put mid : forall seen,
  count is_put_command mid = 0 ->
  fold_left token_after mid seen = true \/
  fold_left token_after mid seen = seen.
Proof.
  induction mid as [|[[|] l] mid IH]; intros seen H; simpl; auto.
  unfold count in *. simpl in H.
  destruct l; simpl in *; auto.
  - destruct (IH true H) as [E|E]; auto.
  - destruct item; [discriminate|auto].
Qed.

Lemma cancelled_after_set tr1 mid :
  count is_put_command mid = 0 ->
  cancelled_since_put (tr1 ++ (Reader, L_Set) :: mid) = true.
Proof.
  intros H. unfold cancelled_since_put. rewrite fold_left_app. simpl.
  destruct (token_after_no_put mid true H); auto.
Qed.

Lemma count_pos_split {A} (p : A -> bool) (l : list A) :
  count p l <> 0 -> exists l1 x l2, l = l1 ++ x :: l2 /\ p x = true.
Proof.
  unfold count. induction l as [|x l IH]; simpl; [congruence|].
  destruct (p x) eqn:E.
  - intros _. exists [], x, l. auto.
  - intros H. destruct (IH H) as (l1 & y & l2 & -> & Hy).
    exists (x :: l1), y, l2. auto.
Qed.

Section Signals.

Variable handler : Handler.

(** While a command is in flight no other is put in the queue. *)
Lemma no_put_before_ack input sched tr1 e mid tr2 :
  trace_of handler sched (init input) = tr1 ++ e :: mid ++ tr2 ->
  count is_put_command tr1 = S (count is_ack tr1) ->
  is_put_command e = false -> is_ack e = false ->
  count is_ack mid = 0 ->
  count is_put_command mid = 0.
Proof.
  intros E Hfl He Hea Hack.
  destruct (Nat.eq_dec (count is_put_command mid) 0) as [|Hn]; [assumption|].
  exfalso. apply count_pos_split in Hn.
  destruct Hn as (m1 & x & m2 & -> & Hx).
  destruct x as [[|] [| | | | |[c|]| | | | | | | | |]]; try discriminate.
  destruct (balanced_run handler input sched) as (_ & _ & Hprev).
  assert (Eq : tr1 ++ e :: (m1 ++ (Reader, L_Put (Some c)) :: m2) ++ tr2
               = (tr1 ++ e :: m1) ++ (Reader, L_Put (Some c)) :: (m2 ++ tr2)).
  { rewrite <- !app_assoc. reflexivity. }
  specialize (Hprev (tr1 ++ e :: m1) c (m2 ++ tr2) (eq_trans E Eq)).
  rewrite !count_app in Hack.
  change (e :: m1) with ([e] ++ m1) in Hprev.
  rewrite !count_app, !count_one, He, Hea in Hprev. simpl in Hprev. lia.
Qed.

End Signals.

(** C6.  A signal frame with status ["cancel"] takes the reader to
    [event.set()], which never blocks, sets the token and leaves the queue
    as it is; with any other status the frame is logged and that is all:
    nothing is sent, token, queue and task counter stay as they are.  If a
    command is in flight when the token is set, every check of the token
    made before that command is acknowledged finds it set. *)
Theorem cancel_signal_sets_token
  (handler : Handler) (input : list request) (sched : list tid) :
  let tr := trace_of handler sched (init input) in
  (forall req k status,
      getitem "kind" req = Some k -> eq_str k "signal" = true ->
      getitem "status" req = Some status ->
      route req = if eq_str status "cancel" then R_SetCancel else R_Log req) /\
  (forall s,
      reader s = R_SetCancel ->
      step handler Reader s
      = Some (L_Set, with_reader (with_event s true) R_Recv)) /\
  (forall s req,
      reader s = R_Log req ->
      exists s',
        step handler Reader s = Some (L_Log req, s') /\
        reader s' = R_Recv /\ logged s' = logged s ++ [req] /\
        outbound s' = outbound s /\ event s' = event s /\
        cmd_queue s' = cmd_queue s /\
        unfinished_tasks s' = unfinished_tasks s) /\
  (forall tr1 mid b tr2,
      tr = tr1 ++ (Reader, L_Set) :: mid ++ (Dispatcher, L_IsSet b) :: tr2 ->
      count is_put_command tr1 = S (count is_ack tr1) ->
      count is_ack mid = 0 ->
      b = true).
Proof.
  intros tr. split; [|split; [|split]].
  - intros req k status Hk Hs Hst. unfold route. rewrite Hk, Hs, Hst.
    reflexivity.
  - intros s Hr. destruct s as [inp ev q u out lg r m]. simpl in *.
    subst r. reflexivity.
  - intros s req Hr. destruct s as [inp ev q u out lg r m]. simpl in *.
    subst r. eexists. split; [reflexivity|]. simpl. auto 10.
  - intros tr1 mid b tr2 E Hfl Hack.
    pose proof (no_put_before_ack handler input sched tr1 _ mid _ E Hfl
                  eq_refl eq_refl Hack) as Hput.
    pose proof (token_check_run handler input sched
                  (tr1 ++ (Reader, L_Set) :: mid) b tr2) as Hseen.
    rewrite <- app_assoc in Hseen. specialize (Hseen E).
    rewrite Hseen. apply cancelled_after_set, Hput.
Qed.

Lemma cancel_signal_sets_token_witness :
  let tr := trace_of echo_handler cancel_in_flight
              (init [Some list_command; Some cancel_signal]) in
  tr = firstn 9 tr ++ (Reader, L_Set) :: [] ++ [(Dispatcher, L_IsSet true)] /\
  count is_put_command (firstn 9 tr) = S (count is_ack (firstn 9 tr)) /\
  count is_ack (@nil (tid * label)) = 0 /\
  true = true.
Proof.
  intros tr. split; [reflexivity|]. split; [reflexivity|].
  split; [reflexivity|].
  apply (proj2 (proj2 (proj2
           (cancel_signal_sets_token echo_handler
              [Some list_command; Some cancel_signal] cancel_in_flight)))
           (firstn 9 tr) [] true []); reflexivity.
Defined.

(** ** One reply per command *)

Section Replies.

Variable handler : Handler.

Lemma dispatcher_view_app tr1 tr2 :
  dispatcher_view (tr1 ++ tr2) = dispatcher_view tr1 ++ dispatcher_view tr2.
Proof. unfold dispatcher_view. apply flat_map_app. Qed.

Lemma replies_match_run input sched :
  replies_match (trace_of handler sched (init input))
                (state_after handler sched (init input)).
Proof.
  apply execution_ind.
  - apply Inv_init.
  - split; [reflexivity|]. intros o H. discriminate.
  - intros tr s t l s' _ (Hc & Ho) Hstep.
    unfold replies_match.
    rewrite !count_app, !count_one, dispatcher_view_app.
    step_cases Hstep; simpl in *; rewrite ?app_nil_r, ?is_result_reply;
      simpl; (split; [lia|]); auto; try (intros o' Ho'; discriminate Ho').
    + intros o' Ho'. inversion Ho'; subst. eexists; reflexivity.
    + intros o' Ho'. inversion Ho'; subst. eexists; reflexivity.
Qed.

(** From the moment the outcome is known, the first thing the dispatcher
    does is to send the frame for it. *)
Lemma reply_comes_first o sched : forall s,
  main s = M_Reply o ->
  dispatcher_view (trace_of handler sched s) = [] \/
  exists rest,
    dispatcher_view (trace_of handler sched s) = L_Send (reply_frame o) :: rest.
Proof.
  unfold trace_of.
  induction sched as [|t sched IH]; intros s Hm; simpl; [auto|].
  destruct (step handler t s) as [[l s']|] eqn:E; [|apply IH; exact Hm].
  destruct t; simpl in E.
  - (* the reader moves *)
    pose proof (step_reader_main _ _ _ E) as Hm'. rewrite Hm in Hm'.
    specialize (IH s' Hm').
    destruct (run handler sched s') as [tr sf]. exact IH.
  - destruct (run handler sched s') as [tr sf]. right. simpl.
    unfold process in E. rewrite Hm in E. inversion E; subst.
    eexists; reflexivity.
Qed.

End Replies.

(** C2.  On an input of valid command frames, after any schedule: the
    handler calls made so far are those of the leading commands, in the
    order of receipt (all of them once [process] has returned); a call is
    made only when every earlier call has had its result frame sent, and a
    result frame is sent only for the one call still open; a command is
    put in the queue only when every command put before it has had its
    result frame sent; the [success]
    and [error] frames in [outbound] are one per call made, the call in
    progress aside; and the schedule can be continued until [process]
    returns. *)
Theorem commands_served_in_order
  (handler : Handler) (cmds : list Dict) (sched : list tid) :
  forallb is_valid_command cmds = true ->
  let tr := trace_of handler sched (init (map Some cmds)) in
  let s := state_after handler sched (init (map Some cmds)) in
  (exists rest,
      map call_args cmds = invocations tr ++ map call_args rest /\
      (main s = M_Returned -> rest = [])) /\
  (forall tr1 a t b tr2,
      tr = tr1 ++ (Dispatcher, L_Invoke a t b) :: tr2 ->
      count is_result tr1 = count is_invoke tr1) /\
  (forall tr1 f tr2,
      tr = tr1 ++ (Dispatcher, L_Send f) :: tr2 ->
      is_result_frame f = true ->
      count is_invoke tr1 = S (count is_result tr1)) /\
  (forall tr1 c tr2,
      tr = tr1 ++ (Reader, L_Put (Some c)) :: tr2 ->
      count is_result tr1 = count is_put_command tr1) /\
  count is_result_frame (outbound s) + b2n (answering (main s))
  = List.length (invocations tr) /\
  (exists more,
      main (state_after handler (sched ++ more) (init (map Some cmds)))
      = M_Returned).
Proof.
  intros Hv tr s.
  assert (HI : Inv s) by (apply run_Inv, Inv_init).
  destruct (served_run handler cmds sched Hv) as (Hc & Hcount & Hsent).
  fold tr s in Hc, Hcount, Hsent.
  repeat split.
  - (* order *)
    destruct (invocations_awaiting handler sched (init (map Some cmds)))
      as (pre & Hpre & Hcalls).
    fold tr s in Hpre, Hcalls.
    assert (Hall : awaiting (init (map Some cmds)) = cmds).
    { unfold awaiting, upcoming. simpl. apply commands_read_valid, Hv. }
    rewrite Hall in Hpre.
    assert (Hact : forallb has_action cmds = true).
    { rewrite forallb_forall in *. intros d Hd.
      apply valid_has_action; auto. }
    exists (awaiting s). split.
    + rewrite <- Hcalls. rewrite Hpre in Hact |- *.
      rewrite forallb_app in Hact. apply andb_prop in Hact.
      rewrite map_app, calls_valid by tauto. reflexivity.
    + intros Hm. clear - HI Hm. unfold awaiting, upcoming.
      destruct s as [inp ev q u out lg r m]. unfold Inv, working in HI.
      simpl in *. subst m. destruct r; crush_inv.
  - (* a call waits for the previous result *)
    intros tr1 a t b tr2 E.
    apply trace_split in E.
    destruct E as (sched1 & _ & s2 & <- & Hstep & _).
    destruct (served_run handler cmds sched1 Hv) as (_ & Hcount1 & _).
    rewrite Hcount1.
    simpl in Hstep. step_cases Hstep. simpl. lia.
  - (* a result answers the open call *)
    intros tr1 f tr2 E Hf.
    apply trace_split in E.
    destruct E as (sched1 & _ & s2 & <- & Hstep & _).
    destruct (served_run handler cmds sched1 Hv) as (_ & Hcount1 & _).
    rewrite Hcount1.
    simpl in Hstep. step_cases Hstep; simpl; try lia; discriminate.
  - (* a put waits for the previous result *)
    intros tr1 c tr2 E.
    apply trace_split in E.
    destruct E as (sched1 & _ & s2 & <- & Hstep & _).
    destruct (balanced_run handler (map Some cmds) sched1) as (Hp & Hg & _).
    destruct (replies_match_run handler (map Some cmds) sched1) as (Hr & _).
    assert (HI1 : Inv (state_after handler sched1 (init (map Some cmds))))
      by (apply run_Inv, Inv_init).
    revert Hp Hg Hr HI1 Hstep.
    generalize (trace_of handler sched1 (init (map Some cmds))).
    generalize (state_after handler sched1 (init (map Some cmds))).
    intros s1 tr1 Hp Hg Hr HI1 Hstep.
    unfold in_flight, Inv in *. simpl in Hstep.
    step_cases Hstep. simpl in *.
    destruct HI1 as (-> & -> & _). simpl in *. lia.
  - (* one result frame per call *)
    unfold s at 1. rewrite outbound_sent. simpl. fold tr.
    rewrite count_invocations. lia.
  - (* the session can be completed *)
    destruct (can_return handler s HI) as [more Hm].
    exists more. rewrite state_after_app. exact Hm.
Qed.

Lemma commands_served_in_order_witness :
  forallb is_valid_command [list_command; bogus_command] = true /\
  count is_result_frame
    (outbound (state_after echo_handler
                 (reader_turns 5 ++ dispatcher_turns 7 ++ reader_turns 5
                  ++ dispatcher_turns 3)
                 (init (map Some [list_command; bogus_command]))))
  + b2n (answering (main (state_after echo_handler
                 (reader_turns 5 ++ dispatcher_turns 7 ++ reader_turns 5
                  ++ dispatcher_turns 3)
                 (init (map Some [list_command; bogus_command])))))
  = List.length
      (invocations (trace_of echo_handler
                 (reader_turns 5 ++ dispatcher_turns 7 ++ reader_turns 5
                  ++ dispatcher_turns 3)
                 (init (map Some [list_command; bogus_command])))).
Proof.
  split; [reflexivity|].
  apply (commands_served_in_order echo_handler [list_command; bogus_command]
           (reader_turns 5 ++ dispatcher_turns 7 ++ reader_turns 5
            ++ dispatcher_turns 3)).
  reflexivity.
Defined.

(** C7.  The frame for an outcome is: for a returned value, kind [success]
    with that value as body; for an [RpcException], kind [error] with its
    status, message and body; for any other exception, kind [error] with
    status [exception], the rendering of the exception as message and an
    empty body.  A handler that has finished with an outcome makes the
    dispatcher send that frame and go to [task_done()], in two moves.  In
    every history each command taken from the queue has exactly one result
    frame, the one being handled aside; each result frame is the frame for
    the outcome the dispatcher saw last; and after an outcome the next
    thing the dispatcher does is to send its frame. *)
Theorem handler_outcome_one_frame
  (handler : Handler) (input : list request) (sched : list tid) :
  let tr := trace_of handler sched (init input) in
  let s := state_after handler sched (init input) in
  (forall v, reply_frame (Returned v)
             = [("kind", JStr "success"); ("body", v)]) /\
  (forall status message body,
      reply_frame (RaisedRpc status message body)
      = [("kind", JStr "error"); ("status", JStr status);
         ("message", JStr message); ("body", body)]) /\
  (forall rendering,
      reply_frame (RaisedOther rendering)
      = [("kind", JStr "error"); ("status", JStr "exception");
         ("message", JStr rendering); ("body", JObj [])]) /\
  (forall s0 o,
      main s0 = M_Run (HDone o) ->
      state_after handler [Dispatcher; Dispatcher] s0
      = with_main (send s0 (reply_frame o)) M_TaskDone) /\
  count is_get_command tr = count is_result tr + b2n (reply_pending (main s)) /\
  (forall tr1 f tr2,
      tr = tr1 ++ (Dispatcher, L_Send f) :: tr2 ->
      is_result_frame f = true ->
      exists o pre,
        dispatcher_view tr1 = pre ++ [L_Outcome o] /\ f = reply_frame o) /\
  (forall tr1 o tr2,
      tr = tr1 ++ (Dispatcher, L_Outcome o) :: tr2 ->
      dispatcher_view tr2 = [] \/
      exists rest, dispatcher_view tr2 = L_Send (reply_frame o) :: rest).
Proof.
  intros tr s.
  split; [reflexivity|]. split; [reflexivity|]. split; [reflexivity|].
  split; [|split; [|split]].
  - intros s0 o Hm. destruct s0 as [inp ev q u out lg r m].
    simpl in Hm. subst m. reflexivity.
  - apply (replies_match_run handler input sched).
  - intros tr1 f tr2 E Hf. apply trace_split in E.
    destruct E as (sched1 & _ & s2 & <- & Hstep & _).
    destruct (replies_match_run handler input sched1) as [_ Ho].
    revert Ho Hstep.
    generalize (trace_of handler sched1 (init input)).
    generalize (state_after handler sched1 (init input)).
    intros s1 tr1 Ho Hstep. simpl in Hstep.
    step_cases Hstep; simpl in *; [discriminate|].
    destruct (Ho o eq_refl) as [pre Hpre]. eauto.
  - intros tr1 o tr2 E. apply trace_split in E.
    destruct E as (sched1 & sched2 & s2 & _ & Hstep & <- & _).
    apply reply_comes_first.
    simpl in Hstep. clear - Hstep.
    step_cases Hstep; reflexivity.
Qed.

Lemma handler_outcome_one_frame_witness :
  outbound (state_after echo_handler [Dispatcher; Dispatcher]
              (state_after echo_handler
                 (reader_turns 5 ++ dispatcher_turns 4)
                 (init [Some list_command])))
  = [signal_frame "progress" None; success_frame (JObj [])].
Proof.
  rewrite (proj1 (proj2 (proj2 (proj2
             (handler_outcome_one_frame echo_handler [] []))))
             _ (Returned (JObj []))); reflexivity.
Defined.

(** ** The call *)

Section Calls.

Variable handler : Handler.



End Calls.



(** ** Fields the core does not read *)

Section Extras.

Variable handler : Handler.

Lemma same_command_refl d : same_command d d.
Proof. left. reflexivity. Qed.

Lemma same_request_refl r : same_request r r.
Proof. destruct r; simpl; auto using same_command_refl. Qed.

Lemma same_reader_refl pc : same_reader pc pc.
Proof. destruct pc; simpl; auto using same_command_refl. Qed.

Lemma same_main_refl pc : same_main pc pc.
Proof. destruct pc; simpl; auto using same_command_refl. Qed.

Lemma same_requests_refl l : Forall2 same_request l l.
Proof. induction l; constructor; auto using same_request_refl. Qed.

Lemma same_state_refl s : same_state s s.
Proof.
  repeat split; auto using same_requests_refl, same_reader_refl, same_main_refl.
Qed.

Lemma command_frame_route d : is_command_frame d = true -> route d = R_Join d.
Proof.
  unfold is_command_frame, route.
  destruct (getitem "kind" d) as [k|]; [|discriminate].
  intros H. rewrite H, (eq_str_command_signal _ H). reflexivity.
Qed.

Lemma command_frame_truthy d : is_command_frame d = true -> truthy (Some d) = true.
Proof. destruct d; [discriminate|reflexivity]. Qed.

Lemma same_route d1 d2 :
  same_command d1 d2 -> same_reader (route d1) (route d2).
Proof.
  intros [->|(H1 & H2 & Ha)]; [apply same_reader_refl|].
  rewrite (command_frame_route _ H1), (command_frame_route _ H2).
  right. auto.
Qed.

Lemma same_after_recv r1 r2 :
  same_request r1 r2 -> same_reader (after_recv r1) (after_recv r2).
Proof.
  destruct r1 as [d1|], r2 as [d2|]; simpl; try tauto.
  intros [->|(H1 & H2 & Ha)]; [apply same_reader_refl|].
  unfold after_recv.
  rewrite (command_frame_truthy _ H1), (command_frame_truthy _ H2).
  right. auto.
Qed.

Lemma same_call d1 d2 : same_command d1 d2 -> call_args d1 = call_args d2.
Proof. intros [->|(_ & _ & Ha)]; auto. Qed.

Lemma same_queue_length (q1 q2 : list (option Dict)) :
  Forall2 same_request q1 q2 -> List.length q1 = List.length q2.
Proof. induction 1; simpl; auto. Qed.

Lemma same_queue_snoc q1 q2 i1 i2 :
  Forall2 same_request q1 q2 -> same_request i1 i2 ->
  Forall2 same_request (q1 ++ [i1]) (q2 ++ [i2]).
Proof. intros Hq Hi. apply Forall2_app; auto. Qed.

Lemma step_reader_same s1 s2 :
  same_state s1 s2 ->
  match _handle_incoming s1, _handle_incoming s2 with
  | Some (l1, s1'), Some (l2, s2') =>
      same_state s1' s2' /\ observable l1 = observable l2
  | None, None => True
  | _, _ => False
  end.
Proof.
  destruct s1 as [inp1 ev1 q1 u1 out1 lg1 r1 m1].
  destruct s2 as [inp2 ev2 q2 u2 out2 lg2 r2 m2].
  unfold same_state. simpl.
  intros (Hin & <- & Hq & <- & <- & <- & Hr & Hm).
  pose proof (same_queue_length _ _ Hq) as Hlen.
  unfold _handle_incoming, recv, put, maxsize. simpl. rewrite <- Hlen.
  destruct r1, r2; simpl in Hr; try discriminate Hr; simpl;
    try match type of Hr with
        | _ = _ => inversion Hr; subst; clear Hr
        end;
    try match goal with
        | |- context [if ?c then _ else _] => destruct c
        end;
    simpl; auto;
    try (split; [|reflexivity]; unfold same_state; simpl;
         repeat split; auto using same_queue_snoc; fail).
  - (* recv *)
    split; [|reflexivity]. unfold same_state. simpl.
    destruct Hin as [|x1 x2 l1 l2 Hx Hl]; simpl;
      repeat split; auto using same_after_recv.
  - (* route *)
    split; [|reflexivity]. unfold same_state. simpl.
    repeat split; auto using same_route.
  - (* the sentinel *)
    repeat split; auto. apply same_queue_snoc; simpl; auto.
Qed.

Lemma step_main_same s1 s2 :
  same_state s1 s2 ->
  match process handler s1, process handler s2 with
  | Some (l1, s1'), Some (l2, s2') =>
      same_state s1' s2' /\ observable l1 = observable l2
  | None, None => True
  | _, _ => False
  end.
Proof.
  destruct s1 as [inp1 ev1 q1 u1 out1 lg1 r1 m1].
  destruct s2 as [inp2 ev2 q2 u2 out2 lg2 r2 m2].
  unfold same_state. simpl.
  intros (Hin & <- & Hq & <- & <- & <- & Hr & Hm).
  unfold process. simpl.
  destruct m1, m2; simpl in Hm; try discriminate Hm; simpl;
    try match type of Hm with
        | _ = _ => inversion Hm; subst; clear Hm
        end.
  - (* get *)
    destruct Hq as [|i1 i2 q1 q2 Hi Hq]; [exact I|].
    split; [|reflexivity]. unfold same_state. simpl.
    repeat split; auto.
    destruct i1, i2; simpl in *; tauto.
  - (* call *)
    apply same_call in Hm. unfold call_args in Hm.
    inversion Hm as [[Ha Ht Hb]]. rewrite Ha, Ht, Hb.
    destruct (getitem "action" req0); split; try reflexivity;
      unfold same_state; simpl; repeat split; auto.
  - match goal with p : hprog |- _ => destruct p end;
      split; try reflexivity;
      unfold same_state; simpl; repeat split; auto.
  - split; [|reflexivity]. unfold same_state; simpl; repeat split; auto.
  - destruct u1; split; try reflexivity;
      unfold same_state; simpl; repeat split; auto.
  - destruct r1, r2; simpl in Hr; try discriminate Hr; auto.
    split; [|reflexivity]. unfold same_state; simpl; repeat split; auto.
  - exact I.
  - exact I.
Qed.

Lemma step_same t s1 s2 :
  same_state s1 s2 ->
  match step handler t s1, step handler t s2 with
  | Some (l1, s1'), Some (l2, s2') =>
      same_state s1' s2' /\ observable l1 = observable l2
  | None, None => True
  | _, _ => False
  end.
Proof. destruct t; [apply step_reader_same | apply step_main_same]. Qed.

(** Inputs that are the same to the core give, under every schedule, the
    same calls, checks, outcomes and frames. *)
Lemma run_same sched : forall s1 s2,
  same_state s1 s2 ->
  observed (trace_of handler sched s1) = observed (trace_of handler sched s2)
  /\ same_state (state_after handler sched s1) (state_after handler sched s2).
Proof.
  unfold trace_of, state_after.
  induction sched as [|t rest IH]; intros s1 s2 Hs; simpl; [auto|].
  pose proof (step_same t s1 s2 Hs) as Hstep.
  destruct (step handler t s1) as [[l1 s1']|], (step handler t s2) as [[l2 s2']|];
    try contradiction.
  - destruct Hstep as [Hs' Hl]. specialize (IH s1' s2' Hs').
    destruct (run handler rest s1') as [tr1 sf1].
    destruct (run handler rest s2') as [tr2 sf2]. simpl in *.
    destruct IH as [IH1 IH2]. split; [|exact IH2].
    unfold observed in *. simpl. rewrite Hl, IH1. reflexivity.
  - apply IH. exact Hs.
Qed.

End Extras.

Lemma getitem_other key k v req :
  key <> k -> getitem k ((key, v) :: req) = getitem k req.
Proof.
  intros H. simpl. destruct (String.eqb_spec k key); [congruence|reflexivity].
Qed.

(** C10.  A field other than [kind], [action], [target] and [body] added
    to a command frame leaves it the same to the core.  Two commands with
    the same [action], [target] and [body] (defaults applied) make the
    dispatcher take the same step from the same state.  And two inputs
    whose frames are pairwise the same to the core give, under every
    schedule, the same handler calls, token checks, outcomes and frames
    sent, and the same output. *)
Theorem unread_fields_have_no_influence (handler : Handler) :
  (forall req key v,
      is_command_frame req = true ->
      key <> "kind" -> key <> "action" -> key <> "target" -> key <> "body" ->
      same_command ((key, v) :: req) req) /\
  (forall s req1 req2,
      call_args req1 = call_args req2 ->
      step handler Dispatcher (with_main s (M_Call req1))
      = step handler Dispatcher (with_main s (M_Call req2))) /\
  (forall input1 input2 sched,
      Forall2 same_request input1 input2 ->
      observed (trace_of handler sched (init input1))
      = observed (trace_of handler sched (init input2)) /\
      outbound (state_after handler sched (init input1))
      = outbound (state_after handler sched (init input2))).
Proof.
  split; [|split].
  - intros req key v Hc Hk Ha Ht Hb. right.
    unfold is_command_frame, call_args, get.
    rewrite !getitem_other by assumption. auto.
  - intros s req1 req2 H. unfold call_args in H.
    inversion H as [[Ha Ht Hb]].
    simpl. unfold process. simpl. rewrite Ha, Ht, Hb. reflexivity.
  - intros input1 input2 sched Hin.
    destruct (run_same handler sched (init input1) (init input2)) as [Ho Hs].
    + unfold same_state. simpl. repeat split; auto.
    + split; [exact Ho|]. apply Hs.
Qed.

Lemma unread_fields_have_no_influence_witness :
  outbound (state_after echo_handler (reader_turns 5 ++ dispatcher_turns 6)
              (init [Some command_with_extras]))
  = outbound (state_after echo_handler (reader_turns 5 ++ dispatcher_turns 6)
                (init [Some list_command])).
Proof.
  apply (proj2 (proj2 (unread_fields_have_no_influence echo_handler))).
  constructor; [|constructor].
  right. repeat split.
Defined.

(** * Further properties of the session *)

(** ** Any input: order of dispatch *)

Lemma enqueues_route req :
  enqueues (route req) = if is_command_frame req then [req] else [].
Proof.
  unfold route, is_command_frame.
  destruct (getitem "kind" req) as [k|]; [|reflexivity].
  destruct (eq_str k "signal") eqn:Es.
  - apply eq_str_true in Es. subst k. simpl.
    destruct (getitem "status" req) as [st|]; [|reflexivity].
    destruct (eq_str st "cancel"); reflexivity.
  - destruct (eq_str k "command"); reflexivity.
Qed.

Lemma upcoming_returned s :
  Inv s -> main s = M_Returned -> upcoming s = [].
Proof.
  intros HI Hm.
  destruct (returned_state s HI) as [Hr Hq]; [rewrite Hm; reflexivity|].
  unfold upcoming. rewrite Hr, Hq. reflexivity.
Qed.

(** X1.  Whatever the input holds, the commands the dispatcher takes from
    the queue are the command frames of the input, in their order, up to
    the first falsy value: at any moment the commands taken followed by
    those still on their way make up that list, and when [process] has
    returned all of them have been taken. *)
Theorem dispatch_follows_receipt
  (handler : Handler) (input : list request) (sched : list tid) :
  let tr := trace_of handler sched (init input) in
  let s := state_after handler sched (init input) in
  (forall req rest,
      truthy (Some req) = true ->
      commands_read (Some req :: rest)
      = (if is_command_frame req then [req] else []) ++ commands_read rest) /\
  (forall v rest, truthy v = false -> commands_read (v :: rest) = []) /\
  dequeued tr ++ upcoming s = commands_read input /\
  (main s = M_Returned -> dequeued tr = commands_read input).
Proof.
  intros tr s.
  assert (HI : Inv s) by (apply run_Inv, Inv_init).
  pose proof (dequeued_upcoming handler sched (init input)) as Hd.
  fold tr s in Hd.
  split; [|split; [|split]].
  - intros req rest Ht. simpl. unfold after_recv. rewrite Ht.
    rewrite enqueues_route. reflexivity.
  - intros v rest Hv. simpl.
    destruct (after_recv_cases v) as [(req & _ & Ht & _) | (_ & ->)];
      [congruence|reflexivity].
  - exact Hd.
  - intros Hm. rewrite (upcoming_returned s HI Hm), app_nil_r in Hd. exact Hd.
Qed.

Lemma dispatch_follows_receipt_witness :
  dequeued (trace_of echo_handler
              (reader_turns 12 ++ dispatcher_turns 8 ++ reader_turns 6
               ++ dispatcher_turns 2)
              (init [Some other_signal; Some list_command;
                     Some unknown_kind; None; Some bogus_command]))
  = [list_command].
Proof.
  apply (proj2 (proj2 (proj2
           (dispatch_follows_receipt echo_handler
              [Some other_signal; Some list_command;
               Some unknown_kind; None; Some bogus_command]
              (reader_turns 12 ++ dispatcher_turns 8 ++ reader_turns 6
               ++ dispatcher_turns 2))))).
  reflexivity.
Defined.

(** ** Any input: one frame for every request that gets one *)

Section Answered.

Variable handler : Handler.

Lemma step_to_receive t s l s' :
  step handler t s = Some (l, s') ->
  received [(t, l)] ++ to_receive s' = to_receive s.
Proof.
  intros H. unfold to_receive.
  step_cases H; simpl; try reflexivity.
  - destruct inp as [|v rest]; simpl.
    + reflexivity.
    + destruct (after_recv_cases v) as [(req & _ & _ & ->) | (_ & ->)];
        reflexivity.
  - destruct (route_cases req) as [[st [msg ->]]|[->|[->| ->]]]; reflexivity.
Qed.

Lemma received_app tr1 tr2 : received (tr1 ++ tr2) = received tr1 ++ received tr2.
Proof. unfold received. apply flat_map_app. Qed.

(** The requests taken into the [try] block so far, then those to come,
    are the requests of the input up to the first falsy value. *)
Lemma received_run input sched :
  received (trace_of handler sched (init input))
  ++ to_receive (state_after handler sched (init input))
  = requests_read input.
Proof.
  apply (execution_ind handler
           (fun tr s => received tr ++ to_receive s = requests_read input)).
  - apply Inv_init.
  - reflexivity.
  - intros tr s t l s' _ IH Hstep.
    rewrite received_app, <- app_assoc, (step_to_receive _ _ _ _ Hstep).
    exact IH.
Qed.




End Answered.



(** ** Progress signals *)

(** X3.  A frame the dispatcher sends that is not a result frame is a
    [signal] frame built by the handler's [signal] callback, and it goes
    out while exactly one command taken from the queue has not had its
    result frame yet: a progress signal always lies between the dequeue of
    the command it belongs to and that command's result frame. *)
Theorem progress_signals_belong_to_call
  (handler : Handler) (input : list request) (sched : list tid)
  (tr1 tr2 : list (tid * label)) (f : Dict) :
  trace_of handler sched (init input)
  = tr1 ++ (Dispatcher, L_Send f) :: tr2 ->
  is_result_frame f = false ->
  is_signal_frame f /\
  count is_get_command tr1 = S (count is_result tr1).
Proof.
  intros E Hf. apply trace_split in E.
  destruct E as (sched1 & _ & s2 & <- & Hstep & _).
  destruct (replies_match_run handler input sched1) as [Hc _].
  revert Hc Hstep.
  generalize (trace_of handler sched1 (init input)).
  generalize (state_after handler sched1 (init input)).
  intros s1 tr1 Hc Hstep. simpl in Hstep.
  step_cases Hstep; simpl in *.
  - split; [exists status, body; reflexivity | lia].
  - rewrite is_result_reply in Hf. discriminate.
Qed.

Lemma progress_signals_belong_to_call_witness :
  is_signal_frame (signal_frame "progress" None).
Proof.
  apply (progress_signals_belong_to_call echo_handler [Some list_command]
           (reader_turns 5 ++ dispatcher_turns 4)
           (firstn 8 (trace_of echo_handler
                        (reader_turns 5 ++ dispatcher_turns 4)
                        (init [Some list_command])))
           []);
    reflexivity.
Defined.

(** ** The shape of what is sent *)

Section Shapes.

Variable handler : Handler.




End Shapes.



(** ** Handlers that never look at the token *)

Section PollFree.

Variable handler : Handler.

Hypothesis handler_poll_free :
  forall action target body, poll_free (handler action target body) = true.

Lemma dispatcher_sent_app tr1 tr2 :
  dispatcher_sent (tr1 ++ tr2) = dispatcher_sent tr1 ++ dispatcher_sent tr2.
Proof. unfold dispatcher_sent. apply flat_map_app. Qed.

Lemma step_answers t s l s' :
  (forall p, main s = M_Run p -> poll_free p = true) ->
  step handler t s = Some (l, s') ->
  (forall p, main s' = M_Run p -> poll_free p = true) /\
  dispatcher_sent [(t, l)] ++ to_send handler (main s')
  ++ flat_map (answer handler) (upcoming s')
  = to_send handler (main s) ++ flat_map (answer handler) (upcoming s).
Proof.
  intros Hpf H. rewrite (step_upcoming _ _ _ _ _ H).
  step_cases H; simpl in *; rewrite ?app_nil_r;
    try (split; [exact Hpf | reflexivity]).
  - (* get *)
    split; [intros p Hp; discriminate|reflexivity].
  - split; [intros p Hp; discriminate|reflexivity].
  - (* call *)
    split.
    + intros p Hp. inversion Hp; subst. apply handler_poll_free.
    + unfold answer. rewrite Heqo. reflexivity.
  - split; [intros p Hp; discriminate|].
    unfold answer. rewrite Heqo. reflexivity.
  - split; [intros p Hp; discriminate|reflexivity].
  - (* signal *)
    split; [|reflexivity].
    intros p Hp. inversion Hp; subst. apply (Hpf _ eq_refl).
  - (* a check of the token: not with such a handler *)
    specialize (Hpf _ eq_refl). discriminate.
  - split; [intros p Hp; discriminate|reflexivity].
  - split; [intros p Hp; discriminate|reflexivity].
  - split; [intros p Hp; discriminate|reflexivity].
  - split; [intros p Hp; discriminate|reflexivity].
Qed.

(** The frames the dispatcher has sent, then those it still owes, are the
    answers to the commands of the input. *)
Lemma answers_run input sched :
  dispatcher_sent (trace_of handler sched (init input))
  ++ to_send handler (main (state_after handler sched (init input)))
  ++ flat_map (answer handler) (upcoming (state_after handler sched (init input)))
  = flat_map (answer handler) (commands_read input).
Proof.
  apply (execution_ind handler
           (fun tr s =>
              (forall p, main s = M_Run p -> poll_free p = true) /\
              dispatcher_sent tr ++ to_send handler (main s)
              ++ flat_map (answer handler) (upcoming s)
              = flat_map (answer handler) (commands_read input))).
  - apply Inv_init.
  - split; [intros p Hp; discriminate|reflexivity].
  - intros tr s t l s' _ [Hpf IH] Hstep.
    destruct (step_answers _ _ _ _ Hpf Hstep) as [Hpf' Hs].
    split; [exact Hpf'|].
    rewrite dispatcher_sent_app, <- app_assoc, Hs. exact IH.
Qed.

Lemma answers_returned input sched :
  main (state_after handler sched (init input)) = M_Returned ->
  dispatcher_sent (trace_of handler sched (init input))
  = flat_map (answer handler) (commands_read input).
Proof.
  intros Hm. pose proof (answers_run input sched) as H.
  rewrite upcoming_returned in H;
    [|apply run_Inv, Inv_init|exact Hm].
  rewrite Hm in H. simpl in H. rewrite app_nil_r in H. exact H.
Qed.

End PollFree.

(** X5.  With a handler that never looks at the token, what the dispatcher
    sends does not depend on the schedule: the frames it has sent, then
    those it still owes for the command it holds and for the commands on
    their way, are the answers (signals, then result frame) to the command
    frames of the input in their order; so when [process] has returned the
    dispatcher has sent exactly these, and two complete runs on the same
    input send the same frames from the dispatcher. *)
Theorem dispatcher_output_independent_of_schedule
  (handler : Handler) (input : list request) (sched sched' : list tid) :
  (forall action target body,
      poll_free (handler action target body) = true) ->
  let tr := trace_of handler sched (init input) in
  let s := state_after handler sched (init input) in
  dispatcher_sent tr ++ to_send handler (main s)
  ++ flat_map (answer handler) (upcoming s)
  = flat_map (answer handler) (commands_read input) /\
  (main s = M_Returned ->
   dispatcher_sent tr = flat_map (answer handler) (commands_read input)) /\
  (main s = M_Returned ->
   main (state_after handler sched' (init input)) = M_Returned ->
   dispatcher_sent tr
   = dispatcher_sent (trace_of handler sched' (init input))).
Proof.
  intros Hpf tr s. split; [|split].
  - apply answers_run. exact Hpf.
  - apply answers_returned. exact Hpf.
  - intros Hm Hm'.
    unfold tr. rewrite !(answers_returned handler Hpf); auto.
Qed.

Lemma dispatcher_output_independent_of_schedule_witness :
  dispatcher_sent
    (trace_of plain_handler
       (reader_turns 5 ++ dispatcher_turns 6 ++ reader_turns 3
        ++ dispatcher_turns 2)
       (init [Some list_command]))
  = dispatcher_sent
      (trace_of plain_handler
         ([Reader; Dispatcher; Reader; Reader; Dispatcher; Reader; Reader]
          ++ dispatcher_turns 3 ++ reader_turns 3 ++ dispatcher_turns 5)
         (init [Some list_command])).
Proof.
  apply (dispatcher_output_independent_of_schedule plain_handler
           [Some list_command]
           (reader_turns 5 ++ dispatcher_turns 6 ++ reader_turns 3
            ++ dispatcher_turns 2)
           ([Reader; Dispatcher; Reader; Reader; Dispatcher; Reader; Reader]
            ++ dispatcher_turns 3 ++ reader_turns 3 ++ dispatcher_turns 5));
    reflexivity.
Defined.

(** ** A command frame behind a running command *)

Section Pipelined.

Variable handler : Handler.

Lemma Inv_unfinished s : Inv s -> in_flight s <= unfinished_tasks s.
Proof.
  destruct s as [inp ev q u out lg r m].
  unfold Inv, working, in_flight; simpl. intros HI.
  destruct r; crush_inv; destruct m; simpl in *; try discriminate; lia.
Qed.

Lemma recv_truthy s req s2 :
  _handle_incoming s = Some (L_Recv (Some req), s2) ->
  truthy (Some req) = true ->
  reader s = R_Recv /\ reader s2 = R_Route req /\ event s2 = event s /\
  unfinished_tasks s2 = unfinished_tasks s.
Proof.
  intros H Ht. step_cases H. simpl.
  unfold after_recv. rewrite H1, Ht. auto.
Qed.

Lemma step_behind t s l s' :
  1 <= unfinished_tasks s -> behind_a_command (reader s) = true ->
  step handler t s = Some (l, s') -> is_ack (t, l) = false ->
  1 <= unfinished_tasks s' /\ behind_a_command (reader s') = true /\
  event s' = event s /\
  (forall x, In x (reader_view [(t, l)]) -> x = L_Route).
Proof.
  intros Hu Hb H Hack.
  step_cases H; simpl in *; try discriminate; try lia;
    try (repeat split; auto; intros x []; fail).
  - (* the reader finds where the command frame goes *)
    rewrite (command_frame_route _ Hb). simpl.
    repeat split; auto. intros x [<-|[]]. reflexivity.
  - apply Nat.eqb_eq in Heqb. lia.
Qed.

(** With a task outstanding, a reader that holds the next command frame
    does not touch the token until [task_done()]. *)
Lemma behind_run sched : forall s,
  1 <= unfinished_tasks s -> behind_a_command (reader s) = true ->
  count is_ack (trace_of handler sched s) = 0 ->
  event (state_after handler sched s) = event s /\
  (forall x, In x (reader_view (trace_of handler sched s)) -> x = L_Route).
Proof.
  unfold trace_of, state_after.
  induction sched as [|t rest IH]; intros s Hu Hb Hc; simpl in *.
  - split; [reflexivity | intros x []].
  - destruct (step handler t s) as [[l s']|] eqn:E; [|apply IH; auto].
    specialize (IH s').
    destruct (run handler rest s') as [tr sf]. simpl in *.
    change ((t, l) :: tr) with ([(t, l)] ++ tr) in Hc.
    rewrite count_app, count_one in Hc.
    assert (Ha : is_ack (t, l) = false)
      by (destruct (is_ack (t, l)); [simpl in Hc; lia | reflexivity]).
    rewrite Ha in Hc. simpl in Hc.
    destruct (step_behind _ _ _ _ Hu Hb E Ha) as (Hu' & Hb' & He & Hv).
    destruct (IH Hu' Hb' Hc) as [IHe IHv].
    split; [congruence|].
    intros x Hx. unfold reader_view in *. simpl in *.
    apply in_app_or in Hx. destruct Hx as [Hx|Hx]; [|auto].
    apply Hv. rewrite app_nil_r. exact Hx.
Qed.

End Pipelined.

(** X6.  A cancel signal that comes behind another command frame does not
    reach the command that is running.  Once the reader has received a
    command frame while a command is in flight, all it does until that
    command's [task_done()] is to find where the frame goes and wait in
    [join()]: it reads nothing more and does not touch the token, so every
    check of the token up to then finds it as it was when the frame
    arrived. *)
Theorem cancel_behind_command_not_seen
  (handler : Handler) (input : list request) (sched : list tid)
  (tr1 mid tr2 : list (tid * label)) (req : Dict) (b : bool) :
  trace_of handler sched (init input)
  = tr1 ++ (Reader, L_Recv (Some req)) :: mid
        ++ (Dispatcher, L_IsSet b) :: tr2 ->
  is_command_frame req = true ->
  count is_put_command tr1 = S (count is_ack tr1) ->
  count is_ack mid = 0 ->
  b = cancelled_since_put tr1 /\
  (forall x, In x (reader_view mid) -> x = L_Route).
Proof.
  intros E Hc Hfl Hack. apply trace_split in E.
  destruct E as (sched1 & sched2 & s2 & Htr1 & Hstep & E2 & _).
  apply trace_split in E2.
  destruct E2 as (sched2a & _ & s3 & Hmid & Hpoll & _).
  set (s1 := state_after handler sched1 (init input)) in *.
  assert (HI1 : Inv s1) by (apply run_Inv, Inv_init).
  simpl in Hstep.
  destruct (recv_truthy _ _ _ Hstep (command_frame_truthy _ Hc))
    as (Hr1 & Hr2 & He2 & Hu2).
  assert (Hu1 : 1 <= unfinished_tasks s1).
  { destruct (balanced_run handler input sched1) as (Hp & _).
    fold s1 in Hp. rewrite Htr1 in Hp.
    pose proof (Inv_unfinished s1 HI1). lia. }
  assert (He1 : event s1 = cancelled_since_put tr1).
  { destruct (token_tracked_run handler input sched1) as (_ & He & _).
    fold s1 in He. rewrite Htr1 in He. apply He. rewrite Hr1. reflexivity. }
  destruct (behind_run handler sched2a s2) as [Hev Hview].
  - lia.
  - rewrite Hr2. exact Hc.
  - rewrite Hmid. exact Hack.
  - rewrite Hmid in Hview. split; [|exact Hview].
    assert (Hb : b = event (state_after handler sched2a s2)).
    { clear - Hpoll. simpl in Hpoll.
      revert Hpoll. generalize (state_after handler sched2a s2).
      intros s Hpoll. step_cases Hpoll. reflexivity. }
    congruence.
Qed.

Lemma cancel_behind_command_not_seen_witness :
  let tr := trace_of echo_handler
              (reader_turns 5 ++ dispatcher_turns 2 ++ reader_turns 4
               ++ dispatcher_turns 1)
              (init [Some list_command; Some bogus_command;
                     Some cancel_signal]) in
  false = cancelled_since_put (firstn 7 tr).
Proof.
  intros tr.
  apply (proj1 (cancel_behind_command_not_seen echo_handler
           [Some list_command; Some bogus_command; Some cancel_signal]
           (reader_turns 5 ++ dispatcher_turns 2 ++ reader_turns 4
            ++ dispatcher_turns 1)
           (firstn 7 tr) [(Reader, L_Route)] [] bogus_command false
           eq_refl eq_refl eq_refl eq_refl)).
Defined.

(** ** What is logged *)

Section Logged.

Variable handler : Handler.

Lemma pending_log_route req : pending_log (route req) = unhandled req.
Proof.
  unfold unhandled.
  destruct (route_cases req) as [[st [msg ->]]|[->|[->| ->]]]; reflexivity.
Qed.

Lemma step_logged t s l s' :
  step handler t s = Some (l, s') ->
  logged s' ++ pending_log (reader s')
  = (logged s ++ pending_log (reader s))
    ++ flat_map unhandled (received [(t, l)]).
Proof.
  intros H. step_cases H; simpl; rewrite ?app_nil_r; try reflexivity.
  - destruct (after_recv_cases (match inp with [] => None | r :: _ => r end))
      as [(req & _ & _ & ->) | (_ & ->)]; simpl; rewrite ?app_nil_r; reflexivity.
  - rewrite pending_log_route. reflexivity.
Qed.

Lemma logged_run input sched :
  logged (state_after handler sched (init input))
  ++ pending_log (reader (state_after handler sched (init input)))
  = flat_map unhandled (received (trace_of handler sched (init input))).
Proof.
  apply (execution_ind handler
           (fun tr s => logged s ++ pending_log (reader s)
                        = flat_map unhandled (received tr))).
  - apply Inv_init.
  - reflexivity.
  - intros tr s t l s' _ IH Hstep.
    rewrite received_app, flat_map_app, <- IH.
    apply (step_logged _ _ _ _ Hstep).
Qed.

Lemma unhandled_spec req :
  unhandled req
  = match getitem "kind" req, getitem "status" req with
    | Some k, Some st =>
        if eq_str k "signal" && negb (eq_str st "cancel") then [req] else []
    | _, _ => []
    end.
Proof.
  unfold unhandled, route.
  destruct (getitem "kind" req) as [k|]; [|reflexivity].
  destruct (eq_str k "signal"); simpl.
  - destruct (getitem "status" req) as [st|]; [|reflexivity].
    destruct (eq_str st "cancel"); reflexivity.
  - destruct (eq_str k "command"), (getitem "status" req); reflexivity.
Qed.

End Logged.

(** X7.  The loop logs a request exactly when it is a signal frame with a
    [status] other than ["cancel"], once, and in the order of receipt:
    what has been logged, together with the request about to be logged,
    is the list of such signals among the requests received; when
    [process] has returned the log holds exactly those of the input up to
    its first falsy value. *)
Theorem unhandled_signals_logged_once
  (handler : Handler) (input : list request) (sched : list tid) :
  let tr := trace_of handler sched (init input) in
  let s := state_after handler sched (init input) in
  (forall req,
      unhandled req
      = match getitem "kind" req, getitem "status" req with
        | Some k, Some st =>
            if eq_str k "signal" && negb (eq_str st "cancel")
            then [req] else []
        | _, _ => []
        end) /\
  logged s ++ pending_log (reader s) = flat_map unhandled (received tr) /\
  (main s = M_Returned ->
   logged s = flat_map unhandled (requests_read input)).
Proof.
  intros tr s. split; [exact unhandled_spec|]. split.
  - apply logged_run.
  - intros Hm.
    assert (HI : Inv s) by (apply run_Inv, Inv_init).
    destruct (returned_state s HI) as [Hr _]; [rewrite Hm; reflexivity|].
    pose proof (logged_run handler input sched) as Hl.
    pose proof (received_run handler input sched) as Hrecv.
    fold tr s in Hl, Hrecv. unfold to_receive in Hrecv.
    rewrite Hr in Hl, Hrecv. simpl in Hl, Hrecv.
    rewrite app_nil_r in Hl, Hrecv. congruence.
Qed.

Lemma unhandled_signals_logged_once_witness :
  logged (state_after echo_handler
            (reader_turns 12 ++ dispatcher_turns 8 ++ reader_turns 6
             ++ dispatcher_turns 2)
            (init [Some other_signal; Some list_command;
                   Some unknown_kind; None; Some bogus_command]))
  = [other_signal].
Proof.
  apply (proj2 (proj2
           (unhandled_signals_logged_once echo_handler
              [Some other_signal; Some list_command;
               Some unknown_kind; None; Some bogus_command]
              (reader_turns 12 ++ dispatcher_turns 8 ++ reader_turns 6
               ++ dispatcher_turns 2)))).
  reflexivity.
Defined.

(** ** After the stream has ended *)

Lemma no_command_put_in_exit tr :
  (forall x, In x (reader_view tr) -> x = L_Set \/ x = L_Put None) ->
  count is_put_command tr = 0.
Proof.
  unfold count, reader_view.
  induction tr as [|[[|] l] tr IH]; simpl; intros H; auto.
  destruct (H l (or_introl eq_refl)) as [-> | ->]; simpl; auto.
Qed.

(** X8.  Once the stream has ended and the reader has set the token, the
    token is never cleared again: every later check by a handler finds it
    set, also for a command that was still in the queue at that time. *)
Theorem checks_after_stream_end_find_token_set
  (handler : Handler) (input : list request) (sched : list tid)
  (tr1 mid tr2 : list (tid * label)) (v : request) (b : bool) :
  trace_of handler sched (init input)
  = tr1 ++ (Reader, L_Recv v) :: mid ++ (Dispatcher, L_IsSet b) :: tr2 ->
  truthy v = false ->
  In (Reader, L_Set) mid ->
  b = true.
Proof.
  intros E Hv Hset.
  assert (Hb : b = cancelled_since_put (tr1 ++ (Reader, L_Recv v) :: mid)).
  { apply (token_check_run handler input sched _ b tr2).
    rewrite E, <- app_assoc. reflexivity. }
  apply trace_split in E.
  destruct E as (sched1 & sched2 & s2 & _ & Hstep & E2 & _).
  apply trace_split in E2.
  destruct E2 as (sched2a & _ & s3 & Hmid & _).
  simpl in Hstep. destruct (recv_falsy _ _ _ Hstep Hv) as (Hr & _).
  assert (He : exiting (reader s2) = true) by (rewrite Hr; reflexivity).
  destruct (exiting_run handler sched2a s2 He) as [_ Hscript].
  rewrite Hr, Hmid in Hscript. simpl in Hscript.
  assert (Hin : forall x, In x (reader_view mid) -> x = L_Set \/ x = L_Put None).
  { intros x Hx.
    assert (Hx' : In x [L_Set; L_Put None])
      by (rewrite <- Hscript; apply in_or_app; auto).
    simpl in Hx'. intuition. }
  apply in_split in Hset. destruct Hset as (m1 & m2 & ->).
  assert (Hput : count is_put_command m2 = 0).
  { apply no_command_put_in_exit. intros x Hx. apply Hin.
    rewrite reader_view_app. apply in_or_app. right.
    unfold reader_view. simpl. right. exact Hx. }
  rewrite Hb.
  replace (tr1 ++ (Reader, L_Recv v) :: m1 ++ (Reader, L_Set) :: m2)
    with ((tr1 ++ (Reader, L_Recv v) :: m1) ++ (Reader, L_Set) :: m2)
    by (rewrite <- app_assoc; reflexivity).
  apply cancelled_after_set, Hput.
Qed.

Lemma checks_after_stream_end_find_token_set_witness :
  true = true.
Proof.
  apply (checks_after_stream_end_find_token_set echo_handler
           [Some list_command]
           (reader_turns 7 ++ dispatcher_turns 3)
           (firstn 5 (trace_of echo_handler
                        (reader_turns 7 ++ dispatcher_turns 3)
                        (init [Some list_command])))
           [(Reader, L_Set); (Dispatcher, L_Get (Some list_command));
            (Dispatcher, L_Invoke (JStr "list") (JArr []) (JObj []))]
           [] None true).
  - reflexivity.
  - reflexivity.
  - left. reflexivity.
Defined.

(** ** Where the reader waits *)

(** X9.  The bound of the queue never holds back a command: when the
    reader comes to [put(request)] the queue is empty and the [put] goes
    through.  In a reachable state the reader cannot move only when it
    waits in [join()] with a task outstanding, when it waits to put the
    sentinel behind a command that is still queued, or when it is done. *)
Theorem reader_waits_only_in_join
  (handler : Handler) (input : list request) (sched : list tid) :
  let s := state_after handler sched (init input) in
  (forall req,
      reader s = R_Put req ->
      cmd_queue s = [] /\
      exists s', step handler Reader s = Some (L_Put (Some req), s')) /\
  (step handler Reader s = None ->
   (exists req, reader s = R_Join req /\ 1 <= unfinished_tasks s) \/
   (reader s = R_ExitPut /\ exists c, cmd_queue s = [Some c]) \/
   reader s = R_Done).
Proof.
  intros s.
  assert (HI : Inv s) by (apply run_Inv, Inv_init).
  revert HI. generalize s. clear s.
  intros [inp ev q u out lg r m]. unfold Inv, working. simpl.
  unfold _handle_incoming, recv, put, maxsize. simpl. intros HI. split.
  - intros req ->. destruct HI as (-> & _ & _). simpl. eauto.
  - destruct r; simpl; try discriminate; auto.
    + destruct (Nat.eqb_spec u 0); [discriminate|].
      intros _. left. exists req. split; [reflexivity|lia].
    + destruct HI as (-> & _ & _). discriminate.
    + destruct HI as [(c & -> & _)|(-> & _)]; simpl; [|discriminate].
      intros _. right; left. eauto.
Qed.

Lemma reader_waits_only_in_join_witness :
  cmd_queue (state_after echo_handler (reader_turns 4)
               (init [Some list_command])) = [].
Proof.
  apply (proj1 (reader_waits_only_in_join echo_handler [Some list_command]
                  (reader_turns 4)) list_command).
  reflexivity.
Defined.

(** ** Lines on the pipes *)

Section Lines.

Variable dumps : Dict -> string.
Variable loads : string -> option json.

Lemma append_assoc (a b c : string) :
  String.append (String.append a b) c = String.append a (String.append b c).
Proof. induction a as [|x a IH]; simpl; [reflexivity | rewrite IH; reflexivity]. Qed.

Lemma readline_line (t left : string) :
  one_line t = true ->
  readline (String.append t (String newline left))
  = (String.append t (String newline EmptyString), left).
Proof.
  induction t as [|c t IH]; simpl; intros H.
  - reflexivity.
  - apply andb_prop in H. destruct H as [Hc Ht].
    destruct (Ascii.eqb c newline); [discriminate|].
    rewrite (IH Ht). reflexivity.
Qed.

Lemma rstrip_line (t : string) :
  rstrip (String.append t (String newline EmptyString)) = rstrip t.
Proof.
  induction t as [|c t IH]; simpl; [reflexivity|].
  rewrite IH. reflexivity.
Qed.

Lemma strip_line (t : string) :
  strip (String.append t (String newline EmptyString)) = strip t.
Proof. unfold strip. rewrite rstrip_line. reflexivity. Qed.

Lemma send_all_from (frames : list Dict) : forall stdout,
  fold_left (pipe_send dumps) frames stdout
  = String.append stdout (fold_left (pipe_send dumps) frames EmptyString).
Proof.
  induction frames as [|f frames IH]; intros stdout; simpl.
  - induction stdout as [|c s IHs]; simpl; congruence.
  - rewrite IH. rewrite (IH (pipe_send dumps EmptyString f)).
    unfold pipe_send. simpl. rewrite !append_assoc. reflexivity.
Qed.

End Lines.

(** X10.  What [send] of [run_rpc_pipes] writes, [recv] of
    [run_rpc_pipes] reads back: if the encoding of each frame has no line
    break in it and no white space around it, then after the frames have
    been sent one after the other, as many calls of [recv()] return their
    decoded encodings in the same order, and the next call returns [None]
    for the end of the stream. *)
Theorem frames_written_are_read_back
  (dumps : Dict -> string) (loads : string -> option json)
  (frames : list Dict) :
  (forall f, In f frames ->
             one_line (dumps f) = true /\ strip (dumps f) = dumps f) ->
  pipe_recv_all loads (S (List.length frames))
    (fold_left (pipe_send dumps) frames EmptyString)
  = map (fun f => loads (dumps f)) frames ++ [Some JNull].
Proof.
  induction frames as [|f frames IH]; intros H.
  - reflexivity.
  - destruct (H f (or_introl eq_refl)) as [Hone Hstrip].
    simpl fold_left. rewrite (send_all_from dumps).
    unfold pipe_send at 1. simpl String.append.
    rewrite append_assoc. simpl String.append.
    change (pipe_recv_all loads (S (List.length (f :: frames))) ?x)
      with (let (v, left) := pipe_recv loads x in
            v :: pipe_recv_all loads (S (List.length frames)) left).
    unfold pipe_recv. rewrite (readline_line _ _ Hone).
    rewrite IH by (intros g Hg; apply H; right; exact Hg).
    simpl map. simpl app. f_equal.
    destruct (dumps f) as [|c t] eqn:E; simpl String.append.
    + (* an empty encoding: the line is the line break alone *)
      reflexivity.
    + change (String c (String.append t (String newline EmptyString)))
        with (String.append (String c t) (String newline EmptyString)).
      rewrite strip_line, Hstrip. reflexivity.
Qed.

Lemma frames_written_are_read_back_witness :
  pipe_recv_all loads_empty 3
    (fold_left (pipe_send dumps_empty) [[]; []] EmptyString)
  = [Some (JObj []); Some (JObj []); Some JNull].
Proof.
  apply (frames_written_are_read_back dumps_empty loads_empty [[]; []]).
  intros f _. split; reflexivity.
Defined.

Lemma readline_last (t : string) :
  one_line t = true -> readline t = (t, EmptyString).
Proof.
  induction t as [|c t IH]; simpl; intros H; [reflexivity|].
  apply andb_prop in H. destruct H as [Hc Ht].
  destruct (Ascii.eqb c newline); [discriminate|].
  rewrite (IH Ht). reflexivity.
Qed.

(** X11.  [recv()] of [run_rpc_pipes] at the edges of its input: at the
    end of the input it returns [None] and leaves the input at its end; a
    line that is a line break alone is not the end of the stream, the
    empty text is handed to [json.loads]; a line is decoded without its
    line break and the white space around it; and a last line without a
    line break is decoded like any other. *)
Theorem recv_at_the_edges (loads : string -> option json) :
  pipe_recv loads EmptyString = (Some JNull, EmptyString) /\
  (forall left,
      pipe_recv loads (String newline left) = (loads EmptyString, left)) /\
  (forall t left,
      one_line t = true ->
      pipe_recv loads (String.append t (String newline left))
      = (loads (strip t), left)) /\
  (forall t,
      one_line t = true -> t <> EmptyString ->
      pipe_recv loads t = (loads (strip t), EmptyString)).
Proof.
  split; [reflexivity|]. split; [reflexivity|]. split.
  - intros t left H. unfold pipe_recv. rewrite (readline_line _ _ H).
    destruct t as [|c t]; [reflexivity|].
    change (String.append (String c t) (String newline EmptyString))
      with (String c (String.append t (String newline EmptyString))).
    cbv iota beta.
    change (String c (String.append t (String newline EmptyString)))
      with (String.append (String c t) (String newline EmptyString)).
    rewrite strip_line. reflexivity.
  - intros t H Hne. unfold pipe_recv. rewrite (readline_last _ H).
    destruct t; [congruence|reflexivity].
Qed.

Lemma recv_at_the_edges_witness :
  pipe_recv loads_empty "  {}" = (Some (JObj []), EmptyString).
Proof.
  apply (proj2 (proj2 (proj2 (recv_at_the_edges loads_empty))));
    [reflexivity | discriminate].
Defined.
